(** * obsidian-claude-code: tool display, logger, settings and popup

    A shallow embedding of the pure and state-passing parts of
    - [utils/toolDisplay]   (tool status, display names),
    - [views/ToolCallDisplay] ([update]),
    - [interfaces/ILogger]   ([createConsoleLogger]),
    - [settings/SettingsTab] (budget / turns handlers, always-allowed
      chips, [McpServerModal.save]),
    - [views/AutocompletePopup] ([getFileSuggestions], [show], [hide]).

    JavaScript strings are modelled as [string]; objects used as maps as
    [gmap string _]; mutable fields by explicit state passing.  The DOM
    is reduced to what the properties below observe. *)

From Stdlib Require Import ZArith QArith Ascii String.
From stdpp Require Import base option list strings pretty gmap.

Local Open Scope string_scope.

(** ** Status enumerations ([utils/toolDisplay]) *)

(** [type SubagentStatus = "starting" | "running" | "thinking"
                         | "completed" | "interrupted" | "error"] *)
Inductive SubagentStatus : Type :=
  | SubStarting
  | SubRunning
  | SubThinking
  | SubCompleted
  | SubInterrupted
  | SubError.

(** [type ToolStatus = "pending" | "running" | "success" | "error"] *)
Inductive ToolStatus : Type :=
  | Pending
  | Running
  | Success
  | Error.

#[global] Instance SubagentStatus_eq_dec : EqDecision SubagentStatus.
Proof. solve_decision. Defined.

#[global] Instance ToolStatus_eq_dec : EqDecision ToolStatus.
Proof. solve_decision. Defined.

(** The string literal each member of the union stands for. *)
Definition SubagentStatus_lit (s : SubagentStatus) : string :=
  match s with
  | SubStarting => "starting"
  | SubRunning => "running"
  | SubThinking => "thinking"
  | SubCompleted => "completed"
  | SubInterrupted => "interrupted"
  | SubError => "error"
  end.

Definition ToolStatus_lit (s : ToolStatus) : string :=
  match s with
  | Pending => "pending"
  | Running => "running"
  | Success => "success"
  | Error => "error"
  end.

(** All members of the [SubagentStatus] union, in declaration order. *)
Definition all_SubagentStatus : list SubagentStatus :=
  [SubStarting; SubRunning; SubThinking; SubCompleted; SubInterrupted; SubError].

(** [isSubagentRunning(subagentStatus?)]: the optional parameter is
    [None] when the argument is [undefined]. *)
Definition isSubagentRunning (subagentStatus : option SubagentStatus) : bool :=
  bool_decide (subagentStatus = Some SubStarting)
  || bool_decide (subagentStatus = Some SubRunning)
  || bool_decide (subagentStatus = Some SubThinking).

(** [isSubagentTool(name)]: [name === "Task"]. *)
Definition isSubagentTool (name : string) : bool :=
  String.eqb name "Task".

(** Truthiness of an optional [SubagentStatus]: every literal of the
    union is a non-empty string, so only [undefined] is falsy. *)
Definition truthy_status (subagentStatus : option SubagentStatus) : bool :=
  match subagentStatus with
  | Some s => negb (String.eqb (SubagentStatus_lit s) "")
  | None => false
  end.

(** [getToolStatusText(status, isSubagent, subagentStatus?)].  Every arm
    of the first switch returns, so the fallback switch is reached only
    when the guard fails; its [default] arm is unreachable for a value
    of type [ToolStatus]. *)
Definition getToolStatusText (status : ToolStatus) (isSubagent : bool)
    (subagentStatus : option SubagentStatus) : string :=
  let fallback :=
    match status with
    | Pending => "pending"
    | Running => "running..."
    | Success => "✓"
    | Error => "✗"
    end in
  if isSubagent && truthy_status subagentStatus then
    match subagentStatus with
    | Some SubStarting => "starting..."
    | Some SubRunning => "running..."
    | Some SubThinking => "thinking..."
    | Some SubCompleted => "✓"
    | Some SubInterrupted => "⚠ interrupted"
    | Some SubError => "✗"
    | None => fallback
    end
  else fallback.

(** [getToolStatusClass(status, isSubagent, subagentStatus?)]. *)
Definition getToolStatusClass (status : ToolStatus) (isSubagent : bool)
    (subagentStatus : option SubagentStatus) : string :=
  if isSubagent && truthy_status subagentStatus then
    match subagentStatus with
    | Some s => SubagentStatus_lit s
    | None => ToolStatus_lit status
    end
  else ToolStatus_lit status.

(** ** JavaScript strings

    A [string] is read as a sequence of UTF-16 code units below 256
    (Latin-1 text); code units above that range are outside the model.
    The three symbols of the status text are output constants and stand
    as written. *)

(** [WhiteSpace] and [LineTerminator] code units below 256: TAB, LF, VT,
    FF, CR, SP and NBSP.  Both [String.prototype.trim] and the regular
    expression class [\s] use this set. *)
Definition isWhiteSpace (c : ascii) : bool :=
  let n := nat_of_ascii c in
  (((9 <=? n) && (n <=? 13)) || (n =? 32) || (n =? 160))%nat.

(** [s.trimStart()] *)
Fixpoint trimStart (s : string) : string :=
  match s with
  | String c s' => if isWhiteSpace c then trimStart s' else s
  | EmptyString => EmptyString
  end.

(** [s.trimEnd()]: a white space character is dropped when nothing but
    white space follows it. *)
Fixpoint trimEnd (s : string) : string :=
  match s with
  | String c s' =>
      let r := trimEnd s' in
      if isWhiteSpace c && String.eqb r EmptyString then EmptyString
      else String c r
  | EmptyString => EmptyString
  end.

(** [s.trim()] *)
Definition trim (s : string) : string := trimEnd (trimStart s).

(** Lower-case mapping of one Latin-1 code unit: [A]-[Z] and the
    accented capitals 192-222 (except the multiplication sign 215). *)
Definition toLowerCase_char (c : ascii) : ascii :=
  let n := nat_of_ascii c in
  if (((65 <=? n) && (n <=? 90))
      || ((192 <=? n) && (n <=? 222) && negb (n =? 215)))%nat
  then ascii_of_nat (n + 32)%nat else c.

(** [s.toLowerCase()] *)
Fixpoint toLowerCase (s : string) : string :=
  match s with
  | String c s' => String (toLowerCase_char c) (toLowerCase s')
  | EmptyString => EmptyString
  end.

(** Upper-case mapping of the letters [a]-[z]; the source applies
    [toUpperCase] to log level literals only. *)
Definition toUpperCase_char (c : ascii) : ascii :=
  let n := nat_of_ascii c in
  if ((97 <=? n) && (n <=? 122))%nat then ascii_of_nat (n - 32)%nat else c.

Fixpoint toUpperCase (s : string) : string :=
  match s with
  | String c s' => String (toUpperCase_char c) (toUpperCase s')
  | EmptyString => EmptyString
  end.

(** [s.startsWith(p)] *)
Definition startsWith (s p : string) : bool := String.prefix p s.

(** [s.includes(sub)] *)
Fixpoint includes (s sub : string) : bool :=
  String.prefix sub s ||
  match s with
  | String _ s' => includes s' sub
  | EmptyString => false
  end.

(** [s.slice(n)] for [0 <= n]. *)
Fixpoint slice_from (n : nat) (s : string) : string :=
  match n, s with
  | O, _ => s
  | S n', String _ s' => slice_from n' s'
  | S _, EmptyString => EmptyString
  end.

(** [s.slice(0, n)] for [0 <= n]. *)
Fixpoint slice_to (n : nat) (s : string) : string :=
  match n, s with
  | O, _ => EmptyString
  | S n', String c s' => String c (slice_to n' s')
  | S _, EmptyString => EmptyString
  end.

(** [s.replace(pat, rep)] with a string pattern: the first occurrence of
    [pat] is replaced (no [$] patterns occur in the replacement used). *)
Fixpoint replace_first (pat rep s : string) : string :=
  if String.prefix pat s then rep +:+ slice_from (String.length pat) s
  else match s with
       | String c s' => String c (replace_first pat rep s')
       | EmptyString => EmptyString
       end.

(** [s.replace(/_/g, " ")] *)
Fixpoint replace_underscores (s : string) : string :=
  match s with
  | String c s' =>
      String (if Ascii.eqb c "_" then " "%char else c) (replace_underscores s')
  | EmptyString => EmptyString
  end.

(** [s.indexOf(c)] for a one-character needle; [-1] when absent. *)
Fixpoint indexOf_char_from (c : ascii) (s : string) (i : Z) : Z :=
  match s with
  | String d s' => if Ascii.eqb d c then i else indexOf_char_from c s' (i + 1)%Z
  | EmptyString => (-1)%Z
  end.

Definition indexOf_char (c : ascii) (s : string) : Z := indexOf_char_from c s 0%Z.

(** [s.split(sep)] for a one-character separator: the pieces between
    the separators, empty pieces included. *)
Fixpoint split_char_acc (sep : ascii) (s cur : string) : list string :=
  match s with
  | String c s' =>
      if Ascii.eqb c sep then cur :: split_char_acc sep s' EmptyString
      else split_char_acc sep s' (cur +:+ String c EmptyString)
  | EmptyString => [cur]
  end.

Definition split_char (sep : ascii) (s : string) : list string :=
  split_char_acc sep s EmptyString.

(** [s.split(/\s+/)]: the pieces between maximal runs of white space;
    [in_ws] records that the previous character belonged to a run. *)
Fixpoint split_ws_acc (s cur : string) (in_ws : bool) : list string :=
  match s with
  | String c s' =>
      if isWhiteSpace c then
        if in_ws then split_ws_acc s' EmptyString true
        else cur :: split_ws_acc s' EmptyString true
      else split_ws_acc s' (cur +:+ String c EmptyString) false
  | EmptyString => [cur]
  end.

Definition split_ws (s : string) : list string := split_ws_acc s EmptyString false.

(** [Array.prototype.indexOf]: the first position of [x], [-1] when
    absent. *)
Fixpoint indexOf_from {A} `{EqDecision A} (l : list A) (x : A) (i : Z) : Z :=
  match l with
  | y :: l' => if decide (y = x) then i else indexOf_from l' x (i + 1)%Z
  | [] => (-1)%Z
  end.

Definition indexOf {A} `{EqDecision A} (l : list A) (x : A) : Z := indexOf_from l x 0%Z.

(** ** Values of type [unknown]

    The properties of a tool input are read in two ways only: as a
    condition ([ToBoolean]) and inside a template literal ([ToString]).
    Strings, [undefined] and [null] are spelled out; any other value
    (number, boolean, array, object) is represented by the results of
    these two conversions. *)
Inductive JSValue : Type :=
  | JUndefined
  | JNull
  | JString (s : string)
  | JOther (truthy : bool) (str : string).

Definition ToBoolean (v : JSValue) : bool :=
  match v with
  | JUndefined | JNull => false
  | JString s => negb (String.eqb s "")
  | JOther b _ => b
  end.

Definition ToString (v : JSValue) : string :=
  match v with
  | JUndefined => "undefined"
  | JNull => "null"
  | JString s => s
  | JOther _ r => r
  end.

(** [input.key] on a [Record<string, unknown>]: a missing key reads as
    [undefined]. *)
Definition get (input : gmap string JSValue) (key : string) : JSValue :=
  default JUndefined (input !! key).

(** [getToolDisplayName(name, input)] *)
Definition getToolDisplayName (name : string) (input : gmap string JSValue) : string :=
  if String.eqb name "Skill" && ToBoolean (get input "skill") then
    "Skill: " +:+ ToString (get input "skill")
  else if String.eqb name "Task" && ToBoolean (get input "subagent_type") then
    "Task: " +:+ ToString (get input "subagent_type")
  else if startsWith name "mcp__obsidian__" then
    let shortName := replace_first "mcp__obsidian__" "" name in
    replace_underscores shortName
  else name.

(** ** Tool calls ([views/ToolCallDisplay]) *)

(** Modelled from the spec: the [subagentProgress] record of a tool
    call, declared in [types] (not among the sources); the display reads
    its [message] and [startTime]. *)
Record SubagentProgress : Type := {
  sp_message : option string;
  sp_startTime : option Z
}.

(** Modelled from the spec: the [ToolCall] record declared in [types]
    (not among the sources), with the fields the display reads:
    identifier, tool name, structured input, status, optional output,
    optional error text, start and end timestamps, the subagent flag and
    the optional subagent status and progress. *)
Record ToolCall : Type := {
  tc_id : string;
  tc_name : string;
  tc_input : gmap string JSValue;
  tc_status : ToolStatus;
  tc_output : option JSValue;
  tc_error : option string;
  tc_startTime : Z;
  tc_endTime : option Z;
  tc_isSubagent : option bool;
  tc_subagentStatus : option SubagentStatus;
  tc_subagentProgress : option SubagentProgress
}.

(** [Partial<ToolCall>]: each key is absent ([None]) or carries a value
    of the field's type; for an optional field the carried value may
    itself be [undefined]. *)
Record PartialToolCall : Type := {
  p_id : option string;
  p_name : option string;
  p_input : option (gmap string JSValue);
  p_status : option ToolStatus;
  p_output : option (option JSValue);
  p_error : option (option string);
  p_startTime : option Z;
  p_endTime : option (option Z);
  p_isSubagent : option (option bool);
  p_subagentStatus : option (option SubagentStatus);
  p_subagentProgress : option (option SubagentProgress)
}.

(** [Object.assign(toolCall, updates)]: every key present in [updates]
    overwrites the field of the target, every other field is kept. *)
Definition Object_assign (toolCall : ToolCall) (updates : PartialToolCall) : ToolCall := {|
  tc_id := default (tc_id toolCall) (p_id updates);
  tc_name := default (tc_name toolCall) (p_name updates);
  tc_input := default (tc_input toolCall) (p_input updates);
  tc_status := default (tc_status toolCall) (p_status updates);
  tc_output := default (tc_output toolCall) (p_output updates);
  tc_error := default (tc_error toolCall) (p_error updates);
  tc_startTime := default (tc_startTime toolCall) (p_startTime updates);
  tc_endTime := default (tc_endTime toolCall) (p_endTime updates);
  tc_isSubagent := default (tc_isSubagent toolCall) (p_isSubagent updates);
  tc_subagentStatus := default (tc_subagentStatus toolCall) (p_subagentStatus updates);
  tc_subagentProgress :=
    default (tc_subagentProgress toolCall) (p_subagentProgress updates)
|}.

(** What [render] writes into the header of a tool call. *)
Record ToolCallHeader : Type := {
  h_name : string;
  h_statusClass : string;
  h_statusText : string;
  h_progress : bool
}.

(** The state of a [ToolCallDisplay]: the tool call it shows, the
    expansion flag, and the header last rendered. *)
Record ToolCallDisplay : Type := {
  toolCall : ToolCall;
  isExpanded : bool;
  header : option ToolCallHeader
}.

(** [!!this.toolCall.isSubagent] *)
Definition flag (b : option bool) : bool := default false b.

(** [ToolCallDisplay.render()], restricted to the header fields that
    depend on the tool call. *)
Definition render (d : ToolCallDisplay) : ToolCallDisplay :=
  let tc := toolCall d in
  {| toolCall := tc;
     isExpanded := isExpanded d;
     header := Some {|
       h_name := getToolDisplayName (tc_name tc) (tc_input tc);
       h_statusClass :=
         getToolStatusClass (tc_status tc) (flag (tc_isSubagent tc)) (tc_subagentStatus tc);
       h_statusText :=
         getToolStatusText (tc_status tc) (flag (tc_isSubagent tc)) (tc_subagentStatus tc);
       h_progress :=
         flag (tc_isSubagent tc) && isSubagentRunning (tc_subagentStatus tc)
     |}
  |}.

(** [ToolCallDisplay.update(updates)] *)
Definition update (d : ToolCallDisplay) (updates : PartialToolCall) : ToolCallDisplay :=
  render {| toolCall := Object_assign (toolCall d) updates;
            isExpanded := isExpanded d;
            header := header d |}.

(** A sequence of calls of [update], oldest first. *)
Definition update_all (d : ToolCallDisplay) (us : list PartialToolCall) : ToolCallDisplay :=
  foldl update d us.

(** The order of the lifecycle: pending, then running, then success or
    error. *)
Inductive status_step : ToolStatus -> ToolStatus -> Prop :=
  | step_start : status_step Pending Running
  | step_success : status_step Running Success
  | step_error : status_step Running Error.

(** A completed call. *)
Definition completed (s : ToolStatus) : Prop := s = Success \/ s = Error.

(** ** Console logger ([interfaces/ILogger]) *)

(** [type LogLevel = "debug" | "info" | "warn" | "error"] *)
Inductive LogLevel : Type :=
  | LDebug
  | LInfo
  | LWarn
  | LError.

#[global] Instance LogLevel_eq_dec : EqDecision LogLevel.
Proof. solve_decision. Defined.

Definition LogLevel_lit (l : LogLevel) : string :=
  match l with
  | LDebug => "debug"
  | LInfo => "info"
  | LWarn => "warn"
  | LError => "error"
  end.

Module ConsoleLogger.

(** The closure state of [createConsoleLogger]: the captured
    [currentLevel], and the lines written so far, each with the
    console method that wrote it. *)
Record t : Type := {
  currentLevel : LogLevel;
  console : list (LogLevel * string)
}.

(** [const levels: LogLevel[] = ["debug", "info", "warn", "error"]] *)
Definition levels : list LogLevel := [LDebug; LInfo; LWarn; LError].

(** [createConsoleLogger(minLevel = "info")] *)
Definition createConsoleLogger (minLevel : option LogLevel) : t :=
  {| currentLevel := default LInfo minLevel; console := [] |}.

(** [shouldLog(level)] *)
Definition shouldLog (lg : t) (level : LogLevel) : bool :=
  (indexOf levels (currentLevel lg) <=? indexOf levels level)%Z.

(** The [data] argument of a log call, as far as [formatMessage] looks
    at it: it is [undefined], or [JSON.stringify(data)] returns a
    string, or returns [undefined] (a function or a symbol), or throws
    a [TypeError] (a circular structure, a BigInt).  Serialising a
    payload is taken not to call the logger itself. *)
Inductive Payload : Type :=
  | NoData
  | Json (text : string)
  | NoJson
  | Circular.

(** [formatMessage(level, component, message, data)]; [None] when
    [JSON.stringify] throws.  [timestamp] is the value of
    [new Date().toISOString()]. *)
Definition formatMessage (timestamp : string) (level : LogLevel)
    (component message : string) (data : Payload) : option string :=
  dataStr ← match data with
             | NoData => Some ""
             | Json text => Some (" " +:+ text)
             | NoJson => Some " undefined"
             | Circular => None
             end;
  Some ("[" +:+ timestamp +:+ "] [" +:+ toUpperCase (LogLevel_lit level) +:+ "] ["
            +:+ component +:+ "] " +:+ message +:+ dataStr).

Definition write (lg : t) (method : LogLevel) (line : string) : t :=
  {| currentLevel := currentLevel lg; console := console lg ++ [(method, line)] |}.

(** How a call of a log method ends: the logger behind it, and whether
    the call threw. *)
Record Result : Type := {
  after : t;
  thrown : bool
}.

(** [console.debug(formatMessage(..))]: the argument is evaluated
    first, and an exception in it leaves the console alone. *)
Definition emit (lg : t) (method : LogLevel) (line : option string) : Result :=
  match line with
  | Some l => {| after := write lg method l; thrown := false |}
  | None => {| after := lg; thrown := true |}
  end.

Definition debug (lg : t) (timestamp component message : string)
    (data : Payload) : Result :=
  if shouldLog lg LDebug
  then emit lg LDebug (formatMessage timestamp LDebug component message data)
  else {| after := lg; thrown := false |}.

Definition info (lg : t) (timestamp component message : string)
    (data : Payload) : Result :=
  if shouldLog lg LInfo
  then emit lg LInfo (formatMessage timestamp LInfo component message data)
  else {| after := lg; thrown := false |}.

Definition warn (lg : t) (timestamp component message : string)
    (data : Payload) : Result :=
  if shouldLog lg LWarn
  then emit lg LWarn (formatMessage timestamp LWarn component message data)
  else {| after := lg; thrown := false |}.

Definition error (lg : t) (timestamp component message : string)
    (data : Payload) : Result :=
  if shouldLog lg LError
  then emit lg LError (formatMessage timestamp LError component message data)
  else {| after := lg; thrown := false |}.

Definition setLevel (lg : t) (level : LogLevel) : t :=
  {| currentLevel := level; console := console lg |}.

Definition getLevel (lg : t) : LogLevel := currentLevel lg.

(** The method of the logger for severity [s]. *)
Definition call (s : LogLevel) : t -> string -> string -> string -> Payload -> Result :=
  match s with
  | LDebug => debug
  | LInfo => info
  | LWarn => warn
  | LError => error
  end.

(** The calls a client can make on a logger. *)
Inductive op : Type :=
  | Log (s : LogLevel) (timestamp component message : string) (data : Payload)
  | SetLevel (level : LogLevel).

(** One call of a client that goes on after an exception. *)
Definition step (lg : t) (o : op) : t :=
  match o with
  | Log s ts c m d => after (call s lg ts c m d)
  | SetLevel l => setLevel lg l
  end.

Definition run (lg : t) (ops : list op) : t := foldl step lg ops.

(** The level of the last [SetLevel] among [ops], [init] when there
    is none. *)
Fixpoint last_level (init : LogLevel) (ops : list op) : LogLevel :=
  match ops with
  | [] => init
  | SetLevel l :: ops' => last_level l ops'
  | Log _ _ _ _ _ :: ops' => last_level init ops'
  end.

End ConsoleLogger.

(** ** Numbers

    A Number is [NaN], an infinity, or a finite value; a finite value is
    kept as the rational it denotes ([-0] is not told apart from [0]). *)
Inductive JSNumber : Type :=
  | NaN
  | PosInf
  | NegInf
  | Fin (q : Q).

(** [isNaN(n)] *)
Definition isNaN (n : JSNumber) : bool :=
  match n with
  | NaN => true
  | _ => false
  end.

(** [n > 0] *)
Definition gt0 (n : JSNumber) : bool :=
  match n with
  | PosInf => true
  | Fin q => (0 <? Qnum q)%Z
  | NaN | NegInf => false
  end.

(** [Number.isInteger(n)]: a finite value without fractional part. *)
Definition isInteger (n : JSNumber) : bool :=
  match n with
  | Fin q => (Qnum q mod Zpos (Qden q) =? 0)%Z
  | _ => false
  end.

(** The Number value for an integer [z]: [z] rounded to the nearest
    binary64 value, ties to even.  Integers below [2^53] in magnitude are
    exact; above, the 53 leading bits are kept and the dropped bits
    decide the rounding; a result of [2^1024] or more is an infinity. *)
Definition Number_of_Z (z : Z) : JSNumber :=
  let m := Z.abs z in
  let n := Z.log2 m in
  let r :=
    if (n <=? 52)%Z then m
    else
      let e := (n - 52)%Z in
      let q := Z.shiftr m e in
      let dropped := Z.land m (Z.ones e) in
      let half := Z.shiftl 1 (e - 1) in
      let q' :=
        if (half <? dropped)%Z || ((dropped =? half)%Z && Z.odd q)
        then (q + 1)%Z else q in
      Z.shiftl q' e in
  if (2 ^ 1024 <=? r)%Z
  then (if (0 <? z)%Z then PosInf else NegInf)
  else Fin (inject_Z (Z.sgn z * r)).

Definition isDigit (c : ascii) : bool :=
  let n := nat_of_ascii c in ((48 <=? n) && (n <=? 57))%nat.

(** The leading decimal digits of [s], most significant first. *)
Fixpoint leading_digits (s : string) : list Z :=
  match s with
  | String c s' =>
      if isDigit c then Z.of_nat (nat_of_ascii c - 48) :: leading_digits s'
      else []
  | EmptyString => []
  end.

Definition decimal_value (ds : list Z) : Z :=
  foldl (fun acc d => (10 * acc + d)%Z) 0%Z ds.

(** [parseInt(s, 10)]: leading white space is skipped, one sign is
    read, then the longest run of decimal digits; without a digit the
    result is [NaN].  (An engine may replace the digits after the 20th
    significant one by zeros; this model keeps them.) *)
Definition parseInt (s : string) : JSNumber :=
  let trimmed := trimStart s in
  let '(sign, body) :=
    match trimmed with
    | String "-" rest => ((-1)%Z, rest)
    | String "+" rest => (1%Z, rest)
    | _ => (1%Z, trimmed)
    end in
  match leading_digits body with
  | [] => NaN
  | ds => Number_of_Z (sign * decimal_value ds)
  end.

(** ** Plugin settings ([settings/SettingsTab]) *)

(** Modelled from the spec: [McpServerConfig], declared in [types] (not
    among the sources): identifier, display name, launch command,
    argument list, optional environment mapping, enabled flag. *)
Record McpServerConfig : Type := {
  mcp_id : string;
  mcp_name : string;
  mcp_command : string;
  mcp_args : list string;
  mcp_env : option (gmap string string);
  mcp_enabled : bool
}.

(** Modelled from the spec: the plugin settings, declared in [types] and
    [main] (not among the sources), with the fields the settings tab
    edits. *)
Record Settings : Type := {
  apiKey : string;
  model : string;
  autoApproveVaultReads : bool;
  autoApproveVaultWrites : bool;
  requireBashApproval : bool;
  alwaysAllowedTools : list string;
  maxBudgetPerSession : JSNumber;
  maxTurns : JSNumber;
  mcpServers : option (list McpServerConfig)
}.

Definition set_alwaysAllowedTools (st : Settings) (v : list string) : Settings := {|
  apiKey := apiKey st; model := model st;
  autoApproveVaultReads := autoApproveVaultReads st;
  autoApproveVaultWrites := autoApproveVaultWrites st;
  requireBashApproval := requireBashApproval st;
  alwaysAllowedTools := v;
  maxBudgetPerSession := maxBudgetPerSession st;
  maxTurns := maxTurns st;
  mcpServers := mcpServers st
|}.

Definition set_maxBudgetPerSession (st : Settings) (v : JSNumber) : Settings := {|
  apiKey := apiKey st; model := model st;
  autoApproveVaultReads := autoApproveVaultReads st;
  autoApproveVaultWrites := autoApproveVaultWrites st;
  requireBashApproval := requireBashApproval st;
  alwaysAllowedTools := alwaysAllowedTools st;
  maxBudgetPerSession := v;
  maxTurns := maxTurns st;
  mcpServers := mcpServers st
|}.

Definition set_maxTurns (st : Settings) (v : JSNumber) : Settings := {|
  apiKey := apiKey st; model := model st;
  autoApproveVaultReads := autoApproveVaultReads st;
  autoApproveVaultWrites := autoApproveVaultWrites st;
  requireBashApproval := requireBashApproval st;
  alwaysAllowedTools := alwaysAllowedTools st;
  maxBudgetPerSession := maxBudgetPerSession st;
  maxTurns := v;
  mcpServers := mcpServers st
|}.

Definition set_mcpServers (st : Settings) (v : option (list McpServerConfig)) : Settings := {|
  apiKey := apiKey st; model := model st;
  autoApproveVaultReads := autoApproveVaultReads st;
  autoApproveVaultWrites := autoApproveVaultWrites st;
  requireBashApproval := requireBashApproval st;
  alwaysAllowedTools := alwaysAllowedTools st;
  maxBudgetPerSession := maxBudgetPerSession st;
  maxTurns := maxTurns st;
  mcpServers := v
|}.

(** The click handler of the remove button of the chip for [tool]:
    [settings.alwaysAllowedTools = settings.alwaysAllowedTools.filter(t => t !== tool)]. *)
Definition removeAlwaysAllowed (tool : string) (st : Settings) : Settings :=
  set_alwaysAllowedTools st (filter (fun t => t <> tool) (alwaysAllowedTools st)).

Section NumberFields.

(** The global [parseFloat]; its decimal-to-binary rounding is not
    reproduced, only its result type. *)
Variable parseFloat : string -> JSNumber.

(** [onChange] of the "Max budget per session" field. *)
Definition onChange_maxBudgetPerSession (st : Settings) (value : string) : Settings :=
  let parsed := parseFloat value in
  if negb (isNaN parsed) && gt0 parsed then set_maxBudgetPerSession st parsed
  else st.

(** [onChange] of the "Max turns per query" field. *)
Definition onChange_maxTurns (st : Settings) (value : string) : Settings :=
  let parsed := parseInt value in
  if negb (isNaN parsed) && gt0 parsed then set_maxTurns st parsed
  else st.

(** An edit of one of the two number fields. *)
Inductive edit : Type :=
  | EditBudget (value : string)
  | EditTurns (value : string).

Definition apply_edit (st : Settings) (e : edit) : Settings :=
  match e with
  | EditBudget v => onChange_maxBudgetPerSession st v
  | EditTurns v => onChange_maxTurns st v
  end.

Definition apply_edits (st : Settings) (es : list edit) : Settings :=
  foldl apply_edit st es.

End NumberFields.

(** A Number that is not [NaN] and greater than zero. *)
Definition positive (n : JSNumber) : Prop := isNaN n = false /\ gt0 n = true.

(** A positive integer. *)
Definition positive_integer (n : JSNumber) : Prop := isInteger n = true /\ gt0 n = true.

(** ** The MCP server modal ([McpServerModal]) *)

(** The modal: the server being edited ([null] when adding), the
    [onSave] callback, the four form fields and whether it is open. *)
Record McpServerModal : Type := {
  server : option McpServerConfig;
  onSave : McpServerConfig -> Settings -> Settings;
  nameInput : string;
  commandInput : string;
  argsInput : string;
  envInput : string;
  isOpen : bool
}.

Definition close (m : McpServerModal) : McpServerModal := {|
  server := server m; onSave := onSave m;
  nameInput := nameInput m; commandInput := commandInput m;
  argsInput := argsInput m; envInput := envInput m;
  isOpen := false
|}.

(** [env[key] = value] on the object made by [const env = {}], read
    as the map of its own enumerable properties.  The key "__proto__"
    names the accessor of [Object.prototype]: its setter is run, which
    ignores a string, and [env] gets no own property; every other key
    becomes or stays an own property that holds [value]. *)
Definition set_property (env : gmap string string) (key value : string) :
    gmap string string :=
  if String.eqb key "__proto__" then env else <[key := value]> env.

(** The body of the loop over [envLines]: one line of the textarea
    added to [env]. *)
Definition env_step (env : gmap string string) (line : string) : gmap string string :=
  let eqIndex := indexOf_char "=" line in
  if (0 <? eqIndex)%Z then
    let key := trim (slice_to (Z.to_nat eqIndex) line) in
    let value := trim (slice_from (Z.to_nat (eqIndex + 1)) line) in
    if negb (String.eqb key "") then set_property env key value else env
  else env.

(** [envLines]: the lines of the textarea that are not blank. *)
Definition envLines (text : string) : list string :=
  filter (fun l => trim l <> "") (split_char "010" text).

(** The [env] record built by [save]. *)
Definition parse_env (text : string) : gmap string string :=
  foldl env_step ∅ (envLines text).

(** [a || b] for an optional string [a]: [undefined] and the empty
    string are falsy. *)
Definition or_else (a : option string) (b : string) : string :=
  match a with
  | Some s => if String.eqb s "" then b else s
  | None => b
  end.

(** What one click on "Save" does. *)
Record SaveResult : Type := {
  sr_modal : McpServerModal;
  sr_settings : Settings;
  sr_notice : option string;
  sr_saved : option McpServerConfig
}.

(** [McpServerModal.save()].  [now] is the value of [Date.now()]; the
    result holds the modal and the settings afterwards, the notice
    shown, and the configuration handed to [onSave]. *)
Definition save (now : N) (m : McpServerModal) (st : Settings) : SaveResult :=
  let name := trim (nameInput m) in
  let command := trim (commandInput m) in
  let argsStr := trim (argsInput m) in
  if String.eqb name "" then
    {| sr_modal := m; sr_settings := st;
       sr_notice := Some "Server name is required"; sr_saved := None |}
  else if String.eqb command "" then
    {| sr_modal := m; sr_settings := st;
       sr_notice := Some "Command is required"; sr_saved := None |}
  else
    let args := if String.eqb argsStr "" then [] else split_ws argsStr in
    let env := parse_env (envInput m) in
    let cfg := {|
      mcp_id := or_else (mcp_id <$> server m) ("mcp-" +:+ pretty now);
      mcp_name := name;
      mcp_command := command;
      mcp_args := args;
      mcp_env := if (0 <? size env)%nat then Some env else None;
      mcp_enabled := match server m with Some s => mcp_enabled s | None => true end
    |} in
    {| sr_modal := close m; sr_settings := onSave m cfg st;
       sr_notice := None; sr_saved := Some cfg |}.

(** The [onSave] callback of "+ Add Server":
    [settings.mcpServers.push(server)], after creating the list when it
    is missing. *)
Definition addServer (cfg : McpServerConfig) (st : Settings) : Settings :=
  set_mcpServers st (Some (default [] (mcpServers st) ++ [cfg])%list).

(** The [onSave] callback of "Edit" for the server at position [i]:
    [Object.assign(server, updated)].  [updated] carries all six keys,
    so every field of the entry is overwritten. *)
Definition editServer (i : nat) (updated : McpServerConfig) (st : Settings) : Settings :=
  set_mcpServers st (alter (fun _ => updated) i <$> mcpServers st).

(** ** The autocomplete popup ([views/AutocompletePopup]) *)

(** A markdown file of the vault, with the fields the popup reads;
    [f_parent] is the path of the parent folder, when there is one. *)
Record TFile : Type := {
  f_path : string;
  f_basename : string;
  f_parent : option string
}.

Inductive SuggestionType : Type :=
  | TCommand
  | TFileSuggestion.

(** Modelled from the spec: [Suggestion], declared in
    [utils/autocomplete] (not among the sources), with the fields the
    popup writes. *)
Record Suggestion : Type := {
  sg_type : SuggestionType;
  sg_value : string;
  sg_label : string;
  sg_description : string;
  sg_icon : option string
}.

(** The object built for a file by the [map] of [getFileSuggestions]. *)
Definition file_suggestion (f : TFile) : Suggestion := {|
  sg_type := TFileSuggestion;
  sg_value := f_path f;
  sg_label := f_basename f;
  sg_description := or_else (f_parent f) "";
  sg_icon := Some "file-text"
|}.

(** The predicate of the [filter] of [getFileSuggestions], for the
    lower-cased query [q]. *)
Definition file_matches (q : string) (f : TFile) : bool :=
  includes (toLowerCase (f_path f)) q || includes (toLowerCase (f_basename f)) q.

(** [getFileSuggestions(query)]; [files] is the result of
    [vault.getMarkdownFiles()]. *)
Definition getFileSuggestions (files : list TFile) (query : string) : list Suggestion :=
  let q := toLowerCase query in
  file_suggestion <$> take 10 (List.filter (file_matches q) files).

(** An item of the rendered list. *)
Record ItemEl : Type := {
  it_selected : bool;
  it_label : string;
  it_description : option string;
  it_icon : option string
}.

Record AutocompletePopup : Type := {
  containerEl : option (list ItemEl);
  suggestions : list Suggestion;
  selectedIndex : nat;
  visible : bool
}.

(** [new AutocompletePopup(plugin, onSelect)] *)
Definition new_popup : AutocompletePopup :=
  {| containerEl := None; suggestions := []; selectedIndex := 0; visible := false |}.

(** [hide()] *)
Definition hide (p : AutocompletePopup) : AutocompletePopup :=
  {| containerEl := None;
     suggestions := suggestions p;
     selectedIndex := selectedIndex p;
     visible := false |}.

(** The elements [render] creates for the suggestions. *)
Definition render_items (sel : nat) (sgs : list Suggestion) : list ItemEl :=
  imap (fun i sg =>
    {| it_selected := Nat.eqb i sel;
       it_label := sg_label sg;
       it_description :=
         if String.eqb (sg_description sg) "" then None else Some (sg_description sg);
       it_icon :=
         match sg_icon sg with
         | Some icon => if String.eqb icon "" then None else Some icon
         | None => None
         end |}) sgs.

(** [render(anchorEl)]: the previous container is dropped through
    [hide()], then a new one is built and attached. *)
Definition render_popup (p : AutocompletePopup) : AutocompletePopup :=
  let p' := hide p in
  {| containerEl := Some (render_items (selectedIndex p') (suggestions p'));
     suggestions := suggestions p';
     selectedIndex := selectedIndex p';
     visible := visible p' |}.

Section Popup.

(** [filterCommands(SLASH_COMMANDS, query)], from [utils/autocomplete]
    (not among the sources). *)
Variable getCommandSuggestions : string -> list Suggestion.

(** [getSuggestions(type, query)] *)
Definition getSuggestions (files : list TFile) (type : SuggestionType)
    (query : string) : list Suggestion :=
  match type with
  | TCommand => getCommandSuggestions query
  | TFileSuggestion => getFileSuggestions files query
  end.

(** [show(anchorEl, type, query)] *)
Definition show (files : list TFile) (p : AutocompletePopup)
    (type : SuggestionType) (query : string) : AutocompletePopup :=
  let p1 := {| containerEl := containerEl p;
               suggestions := getSuggestions files type query;
               selectedIndex := selectedIndex p;
               visible := visible p |} in
  if (length (suggestions p1) =? 0)%nat then hide p1
  else
    render_popup {| containerEl := containerEl p1;
                    suggestions := suggestions p1;
                    selectedIndex := 0;
                    visible := true |}.

End Popup.

(** [isVisible()] *)
Definition isVisible (p : AutocompletePopup) : bool := visible p.

(** ** The statements of the specification, in its own words *)

(** The words of a string: its maximal runs of characters that are not
    white space, in order.  [cur] is the run being read. *)
Fixpoint words_acc (s cur : string) : list string :=
  match s with
  | String c s' =>
      if isWhiteSpace c then
        if String.eqb cur "" then words_acc s' "" else cur :: words_acc s' ""
      else words_acc s' (cur +:+ String c "")
  | EmptyString => if String.eqb cur "" then [] else [cur]
  end.

Definition words (s : string) : list string := words_acc s "".

(** [c] occurs in [s]. *)
Fixpoint occurs (c : ascii) (s : string) : bool :=
  match s with
  | String d s' => Ascii.eqb d c || occurs c s'
  | EmptyString => false
  end.

(** [line] has the form KEY=value and assigns [value] to [key]: the
    text before the first ['='] trims to the non-empty [key], and the
    text after it trims to [value]. *)
Definition assigns (line key value : string) : Prop :=
  exists pre post : string,
    line = pre +:+ "=" +:+ post /\ occurs "=" pre = false /\
    key = trim pre /\ key <> "" /\ value = trim post.

(** Among [lines], the last one that assigns to [key] gives it
    [value]. *)
Definition last_assignment (lines : list string) (key value : string) : Prop :=
  exists (before after : list string) (line : string),
    lines = (before ++ line :: after)%list /\ assigns line key value /\
    forall l v, l ∈ after -> ~ assigns l key v.

(** The monotone lifecycle, as the specification states it for
    [ToolCallDisplay.update]: an update leaves the status where it is or
    moves it one step along pending, running, success or error. *)
Definition update_is_monotone : Prop :=
  forall (d : ToolCallDisplay) (updates : PartialToolCall),
    tc_status (toolCall (update d updates)) = tc_status (toolCall d) \/
    status_step (tc_status (toolCall d)) (tc_status (toolCall (update d updates))).

(** The filter of the file suggestions, as the specification states
    it: the path or the base name itself contains the lower-cased
    query. *)
Definition suggestions_contain_lowercased_query : Prop :=
  forall (files : list TFile) (query : string) (sg : Suggestion),
    sg ∈ getFileSuggestions files query ->
    exists f, f ∈ files /\ sg = file_suggestion f /\
      (includes (f_path f) (toLowerCase query) = true \/
       includes (f_basename f) (toLowerCase query) = true).

(** The name of a level as a line of the console shows it. *)
Definition level_tag (s : LogLevel) : string :=
  match s with
  | LDebug => "DEBUG"
  | LInfo => "INFO"
  | LWarn => "WARN"
  | LError => "ERROR"
  end.

(** A line of the console: time stamp, level, component and message,
    and [suffix] for the payload. *)
Definition console_line (ts : string) (s : LogLevel) (c m suffix : string) : string :=
  "[" +:+ ts +:+ "] [" +:+ level_tag s +:+ "] [" +:+ c +:+ "] " +:+ m +:+ suffix.

(** What a line shows of the payload: nothing for no payload, a blank
    and the JSON text otherwise; no line can be made of a payload that
    cannot be serialised. *)
Definition payload_text (d : ConsoleLogger.Payload) : option string :=
  match d with
  | ConsoleLogger.NoData => Some ""
  | ConsoleLogger.Json text => Some (String " " text)
  | ConsoleLogger.NoJson => Some " undefined"
  | ConsoleLogger.Circular => None
  end.

(** The call that led from [before] to [after] has written a line. *)
Definition emitted (before after : ConsoleLogger.t) : Prop :=
  exists line : LogLevel * string,
    ConsoleLogger.console after = (ConsoleLogger.console before ++ [line])%list.

(** The level filter, as the specification states it: after
    [setLevel(L)] a call at severity [S] is emitted exactly when the
    index of [S] is at least the index of [L]. *)
Definition every_call_at_or_above_level_is_emitted : Prop :=
  forall (lg : ConsoleLogger.t) (L S : LogLevel) (ts c m : string)
         (d : ConsoleLogger.Payload),
    emitted (ConsoleLogger.setLevel lg L)
            (ConsoleLogger.after
               (ConsoleLogger.call S (ConsoleLogger.setLevel lg L) ts c m d)) <->
    (indexOf ConsoleLogger.levels S >= indexOf ConsoleLogger.levels L)%Z.

(** A finished "Read" call, and the update [{ status: "pending" }]. *)
Definition finished_call : ToolCallDisplay := {|
  toolCall := {|
    tc_id := "toolu_1"; tc_name := "Read"; tc_input := ∅;
    tc_status := Success; tc_output := Some (JString "done"); tc_error := None;
    tc_startTime := 1000; tc_endTime := Some 1200%Z; tc_isSubagent := None;
    tc_subagentStatus := None; tc_subagentProgress := None |};
  isExpanded := false;
  header := None
|}.

Definition status_pending : PartialToolCall := {|
  p_id := None; p_name := None; p_input := None; p_status := Some Pending;
  p_output := None; p_error := None; p_startTime := None; p_endTime := None;
  p_isSubagent := None; p_subagentStatus := None; p_subagentProgress := None
|}.

(** The decimal numeral [1] followed by 309 zeros, i.e. [10^309]. *)
Fixpoint zeros (n : nat) : string :=
  match n with
  | O => EmptyString
  | S n' => String "0" (zeros n')
  end.

Definition numeral_10_pow_309 : string := String "1" (zeros 309).

(** A default configuration of the plugin. *)
Definition default_settings : Settings := {|
  apiKey := ""; model := "sonnet";
  autoApproveVaultReads := true; autoApproveVaultWrites := false;
  requireBashApproval := true; alwaysAllowedTools := [];
  maxBudgetPerSession := Fin (inject_Z 10); maxTurns := Fin (inject_Z 50);
  mcpServers := Some []
|}.

(** The replacement of one character by [replace_underscores]. *)
Definition underscore_to_space (c : ascii) : ascii :=
  if Ascii.eqb c "_" then " "%char else c.

(** A vault with one note in the folder "Notes". *)
Definition notes_file : TFile :=
  {| f_path := "Notes/A.md"; f_basename := "A"; f_parent := Some "Notes" |}.

(** A string of white space only. *)
Fixpoint blank (s : string) : bool :=
  match s with
  | String c s' => isWhiteSpace c && blank s'
  | EmptyString => true
  end.

(** The "Add MCP Server" modal with the name "files", the command left
    as it is, and two lines in the environment textarea: [A=1] and
    [__proto__=x]. *)
Definition modal_with_proto_line : McpServerModal := {|
  server := None;
  onSave := addServer;
  nameInput := "files";
  commandInput := "npx";
  argsInput := "";
  envInput := "A=1" +:+ String "010" "__proto__=x";
  isOpen := true
|}.

(** * More of the sources *)

(** ** The input summary ([utils/toolDisplay]) *)

(** [s.split("/").pop() || ""]: the part of [s] after its last slash. *)
Definition last_segment (s : string) : string :=
  or_else (last (split_char "/" s)) "".

(** [getToolInputSummary(name, input)].  [String(v)] is [ToString v];
    [Object.keys(input).length] is the number of keys of [input]. *)
Definition getToolInputSummary (name : string) (input : gmap string JSValue) : string :=
  if String.eqb name "Skill" && ToBoolean (get input "args") then
    let args := ToString (get input "args") in
    if (40 <? String.length args)%nat then slice_to 40 args +:+ "..." else args
  else if String.eqb name "Task" && ToBoolean (get input "description") then
    ToString (get input "description")
  else if ToBoolean (get input "file_path") then
    last_segment (ToString (get input "file_path"))
  else if ToBoolean (get input "path") then
    last_segment (ToString (get input "path"))
  else if ToBoolean (get input "pattern") then
    ToString (get input "pattern")
  else if ToBoolean (get input "command") then
    let cmd := ToString (get input "command") in
    if (30 <? String.length cmd)%nat then slice_to 30 cmd +:+ "..." else cmd
  else if ToBoolean (get input "query") then
    let q := ToString (get input "query") in
    if (30 <? String.length q)%nat then slice_to 30 q +:+ "..." else q
  else
    if (0 <? size input)%nat then pretty (size input) +:+ " params" else "".

(** ** Vault paths in a message ([views/MessageRenderer])

    The sources hold two versions of [MessageRenderer]; the definitions
    below follow the later one, which decides on the text alone and
    collects the matches of two patterns. *)

(** [s.endsWith(suffix)] *)
Definition endsWith (s suffix : string) : bool :=
  (String.length suffix <=? String.length s)%nat &&
  String.eqb (slice_from (String.length s - String.length suffix) s) suffix.

(** [const extensions = [".md", ".txt", ...]] of [isVaultPath]. *)
Definition extensions : list string :=
  [".md"; ".txt"; ".pdf"; ".png"; ".jpg"; ".jpeg"; ".gif"; ".svg"; ".canvas"].

(** The backslash. *)
Definition backslash : string := String (ascii_of_nat 92) "".

(** [isVaultPath(text)] *)
Definition isVaultPath (text : string) : bool :=
  if includes text "://" || startsWith text "http" then false
  else if String.eqb text "" || (String.length text <? 3)%nat then false
  else
    let lowerText := toLowerCase text in
    if existsb (fun ext => endsWith lowerText ext) extensions then true
    else if (includes text "/" || includes text backslash)
            && negb (includes text " ") then true
    else false.

(** [interface PathMatch] of [processTextNodes]: where a path was found
    in the text of a node, and what to show for it. *)
Record PathMatch : Type := {
  pm_index : nat;
  pm_length : nat;
  pm_path : string;
  pm_displayText : string
}.

(** [allMatches.sort((a, b) => a.index - b.index)]: a stable sort by
    [index], written as the insertion of each match behind the matches
    that do not start later. *)
Fixpoint insert_match (m : PathMatch) (sorted : list PathMatch) : list PathMatch :=
  match sorted with
  | x :: rest =>
      if (pm_index x <=? pm_index m)%nat then x :: insert_match m rest
      else m :: sorted
  | [] => [m]
  end.

Definition sort_matches (ms : list PathMatch) : list PathMatch :=
  foldl (fun sorted m => insert_match m sorted) [] ms.

(** The loop that drops overlapping matches: a match is kept when it
    starts at or behind [lastEnd], the end of the match kept last. *)
Fixpoint removeOverlaps (lastEnd : nat) (ms : list PathMatch) : list PathMatch :=
  match ms with
  | m :: rest =>
      if (lastEnd <=? pm_index m)%nat
      then m :: removeOverlaps (pm_index m + pm_length m) rest
      else removeOverlaps lastEnd rest
  | [] => []
  end.

(** [text.slice(from, to)] for [0 <= from] and [0 <= to]. *)
Definition slice (from to : nat) (text : string) : string :=
  slice_to (to - from) (slice_from from text).

(** A child of the fragment that replaces a text node: a text node, or
    the clickable span made for a match, with its [textContent], its
    [title] when one is set, and the path that a click opens. *)
Inductive FragmentNode : Type :=
  | TextNode (content : string)
  | VaultLink (textContent : string) (title : option string) (path : string).

(** The [title] of the span of a match: set when the path differs from
    the text shown. *)
Definition link_title (m : PathMatch) : option string :=
  if String.eqb (pm_path m) (pm_displayText m) then None else Some (pm_path m).

(** The span made for the match [m]:
    [span.textContent = m.displayText], the title, and
    [makeClickable(span, m.path)]. *)
Definition vault_link (m : PathMatch) : FragmentNode :=
  VaultLink (pm_displayText m) (link_title m) (pm_path m).

(** The loop that fills the fragment: before each match the text since
    [lastIndex], then the span; behind the last match the rest of the
    text. *)
Fixpoint fill_fragment (text : string) (lastIndex : nat) (ms : list PathMatch)
    : list FragmentNode :=
  match ms with
  | m :: rest =>
      (if (lastIndex <? pm_index m)%nat
       then [TextNode (slice lastIndex (pm_index m) text)] else [])
      ++ vault_link m :: fill_fragment text (pm_index m + pm_length m) rest
  | [] =>
      if (lastIndex <? String.length text)%nat
      then [TextNode (slice_from lastIndex text)] else []
  end.

(** What [processTextNodes] does to one text node once [allMatches] is
    collected: [None] when the node is left alone, else the children of
    the fragment that replaces it. *)
Definition replace_text_node (text : string) (allMatches : list PathMatch)
    : option (list FragmentNode) :=
  let filteredMatches := removeOverlaps 0 (sort_matches allMatches) in
  if (length filteredMatches =? 0)%nat then None
  else Some (fill_fragment text 0 filteredMatches).

(** The text that a fragment shows: the text of its children, one
    behind the other. *)
Definition fragment_text (nodes : list FragmentNode) : string :=
  foldr String.append ""
    ((fun n => match n with
               | TextNode content => content
               | VaultLink shown _ _ => shown
               end) <$> nodes).

(** The spans of a fragment: what each shows, its title, and the path
    it opens. *)
Definition spans_of (nodes : list FragmentNode)
    : list (string * option string * string) :=
  omap (fun n => match n with
                 | VaultLink shown title path => Some (shown, title, path)
                 | TextNode _ => None
                 end) nodes.

(** [text] from [pos] on, with the range of each of the matches [ms]
    replaced by the display text of the match. *)
Fixpoint with_display_texts (text : string) (pos : nat) (ms : list PathMatch)
    : string :=
  match ms with
  | m :: rest =>
      slice pos (pm_index m) text +:+ pm_displayText m +:+
      with_display_texts text (pm_index m + pm_length m) rest
  | [] => slice_from pos text
  end.

(** The match displays the very text it covers. *)
Definition displays_covered_text (text : string) (m : PathMatch) : Prop :=
  pm_displayText m = slice (pm_index m) (pm_index m + pm_length m) text.

(** The matches are in the order of their start, none before [lo]. *)
Fixpoint sorted_from (lo : nat) (ms : list PathMatch) : Prop :=
  match ms with
  | m :: rest => lo <= pm_index m /\ sorted_from (pm_index m) rest
  | [] => True
  end.

(** Each match ends before the next one starts. *)
Fixpoint disjoint_from (lastEnd : nat) (ms : list PathMatch) : Prop :=
  match ms with
  | m :: rest => lastEnd <= pm_index m /\ disjoint_from (pm_index m + pm_length m) rest
  | [] => True
  end.

(** ** The tool call display, continued ([views/ToolCallDisplay]) *)

(** [toggle()] *)
Definition toggle (d : ToolCallDisplay) : ToolCallDisplay :=
  render {| toolCall := toolCall d; isExpanded := negb (isExpanded d);
            header := header d |}.

(** [expand()] *)
Definition expand (d : ToolCallDisplay) : ToolCallDisplay :=
  render {| toolCall := toolCall d; isExpanded := true; header := header d |}.

(** [collapse()] *)
Definition collapse (d : ToolCallDisplay) : ToolCallDisplay :=
  render {| toolCall := toolCall d; isExpanded := false; header := header d |}.

(** What a user or the controller does to a display. *)
Inductive display_op : Type :=
  | DoUpdate (updates : PartialToolCall)
  | DoToggle
  | DoExpand
  | DoCollapse.

Definition display_step (d : ToolCallDisplay) (o : display_op) : ToolCallDisplay :=
  match o with
  | DoUpdate u => update d u
  | DoToggle => toggle d
  | DoExpand => expand d
  | DoCollapse => collapse d
  end.

(** ** The console logger, continued *)

(** One call of a log method: severity, time stamp, component, message
    and payload. *)
Record LogCall : Type := {
  lc_severity : LogLevel;
  lc_timestamp : string;
  lc_component : string;
  lc_message : string;
  lc_data : ConsoleLogger.Payload
}.

Definition log_op (c : LogCall) : ConsoleLogger.op :=
  ConsoleLogger.Log (lc_severity c) (lc_timestamp c) (lc_component c)
                    (lc_message c) (lc_data c).

(** What the console is expected to show for a call that is not
    filtered: nothing when the payload cannot be serialised. *)
Definition expected_line (c : LogCall) : option (LogLevel * string) :=
  suffix ← payload_text (lc_data c);
  Some (lc_severity c,
        console_line (lc_timestamp c) (lc_severity c) (lc_component c)
                     (lc_message c) suffix).

(** ** The settings tab, continued ([settings/SettingsTab]) *)

(** The click handler of "Delete" for a server with identifier [id]:
    [settings.mcpServers = settings.mcpServers.filter(s => s.id !== server.id)].
    The button exists for the servers of the list only, so the list is
    defined when the handler runs. *)
Definition deleteServer (id : string) (st : Settings) : Settings :=
  set_mcpServers st (filter (fun s => mcp_id s <> id) <$> mcpServers st).

(** [String(n)] for a non-negative integer below [10^21]: its decimal
    digits. *)
Definition String_of_N (n : N) : string := pretty n.

(** [lines.join(sep)] *)
Definition join (sep : string) (l : list string) : string := String.concat sep l.

(** [`${k}=${v}`] *)
Definition env_entry (kv : string * string) : string :=
  fst kv +:+ "=" +:+ snd kv.

(** What a text input keeps of a value it is given: the value
    sanitization of [<input type="text">] strips the line breaks U+000A
    and U+000D. *)
Fixpoint strip_newlines (s : string) : string :=
  match s with
  | String c s' =>
      if Ascii.eqb c "010" || Ascii.eqb c "013" then strip_newlines s'
      else String c (strip_newlines s')
  | EmptyString => EmptyString
  end.

(** What [textarea.value] returns for a value it was given: every pair
    U+000D U+000A and every other U+000D has become one U+000A. *)
Fixpoint normalize_newlines (s : string) : string :=
  match s with
  | String c s' =>
      if Ascii.eqb c "013" then
        match s' with
        | String d _ =>
            if Ascii.eqb d "010" then normalize_newlines s'
            else String "010" (normalize_newlines s')
        | EmptyString => String "010" EmptyString
        end
      else String c (normalize_newlines s')
  | EmptyString => EmptyString
  end.

(** [McpServerModal.onOpen()], as far as it fills the form: the fields
    are set from the server being edited, or to their defaults, and
    hold what [getValue()] and [envInput.value] return afterwards.
    [Object.entries(env)] is taken in the order of [map_to_list]. *)
Definition onOpen (srv : option McpServerConfig)
    (cb : McpServerConfig -> Settings -> Settings) : McpServerModal := {|
  server := srv;
  onSave := cb;
  nameInput := strip_newlines (or_else (mcp_name <$> srv) "");
  commandInput := strip_newlines (or_else (mcp_command <$> srv) "npx");
  argsInput := strip_newlines (or_else (join " " <$> (mcp_args <$> srv)) "");
  envInput :=
    match srv ≫= mcp_env with
    | Some env =>
        normalize_newlines (join (String "010" "") (env_entry <$> map_to_list env))
    | None => ""
    end;
  isOpen := true
|}.

(** A string without white space. *)
Fixpoint no_space (s : string) : bool :=
  match s with
  | String c s' => negb (isWhiteSpace c) && no_space s'
  | EmptyString => true
  end.

(** A string without a line break. *)
Definition one_line (s : string) : Prop :=
  occurs "010" s = false /\ occurs "013" s = false.

(** A server configuration that the form shows as it is stored: name,
    command, keys and values are trimmed and hold no line break,
    arguments are words, no key holds an equals sign, and no key is
    "__proto__". *)
Definition well_formed_env (env : gmap string string) : Prop :=
  env <> ∅ /\
  forall k v : string, env !! k = Some v ->
    trim k = k /\ k <> "" /\ k <> "__proto__" /\ occurs "=" k = false /\
    one_line k /\ trim v = v /\ one_line v.

Definition well_formed_server (s : McpServerConfig) : Prop :=
  mcp_id s <> "" /\
  trim (mcp_name s) = mcp_name s /\ mcp_name s <> "" /\ one_line (mcp_name s) /\
  trim (mcp_command s) = mcp_command s /\ mcp_command s <> "" /\
  one_line (mcp_command s) /\
  Forall (fun a => a <> "" /\ no_space a = true) (mcp_args s) /\
  match mcp_env s with
  | Some env => well_formed_env env
  | None => True
  end.

(** ** The autocomplete popup, continued ([views/AutocompletePopup]) *)

(** [updateSelection()]: the class "selected" is put on the item at
    [selectedIndex] and taken from every other item. *)
Definition updateSelection (p : AutocompletePopup) : AutocompletePopup :=
  match containerEl p with
  | None => p
  | Some items =>
      {| containerEl :=
           Some (imap (fun i it =>
                   {| it_selected := Nat.eqb i (selectedIndex p);
                      it_label := it_label it;
                      it_description := it_description it;
                      it_icon := it_icon it |}) items);
         suggestions := suggestions p;
         selectedIndex := selectedIndex p;
         visible := visible p |}
  end.

Definition set_selectedIndex (p : AutocompletePopup) (i : nat) : AutocompletePopup :=
  {| containerEl := containerEl p; suggestions := suggestions p;
     selectedIndex := i; visible := visible p |}.

(** [selectCurrent()]: the popup afterwards, and the suggestions handed
    to [onSelect]. *)
Definition selectCurrent (p : AutocompletePopup) : AutocompletePopup * list Suggestion :=
  (hide p,
   match suggestions p !! selectedIndex p with
   | Some suggestion => [suggestion]
   | None => []
   end).

(** The "click" listener of item [i]. *)
Definition click_item (i : nat) (p : AutocompletePopup)
    : AutocompletePopup * list Suggestion :=
  selectCurrent (set_selectedIndex p i).

(** The "mouseenter" listener of item [i]. *)
Definition mouseenter_item (i : nat) (p : AutocompletePopup) : AutocompletePopup :=
  updateSelection (set_selectedIndex p i).

(** What [handleKeydown] returns and does: the popup afterwards, the
    suggestions handed to [onSelect], whether [preventDefault] was
    called, and the returned flag. *)
Record KeyResult : Type := {
  kr_popup : AutocompletePopup;
  kr_selected : list Suggestion;
  kr_prevented : bool;
  kr_handled : bool
}.

Section Keys.

(** [nextIndex] and [prevIndex], from [utils/autocomplete] (not among
    the sources): the index to move to from the current index, given
    the number of suggestions. *)
Variables nextIndex prevIndex : nat -> nat -> nat.

(** [handleKeydown(e)], for [e.key = key]. *)
Definition handleKeydown (p : AutocompletePopup) (key : string) : KeyResult :=
  if negb (visible p) then
    {| kr_popup := p; kr_selected := []; kr_prevented := false; kr_handled := false |}
  else if String.eqb key "ArrowDown" then
    {| kr_popup :=
         updateSelection
           (set_selectedIndex p
              (nextIndex (selectedIndex p) (length (suggestions p))));
       kr_selected := []; kr_prevented := true; kr_handled := true |}
  else if String.eqb key "ArrowUp" then
    {| kr_popup :=
         updateSelection
           (set_selectedIndex p
              (prevIndex (selectedIndex p) (length (suggestions p))));
       kr_selected := []; kr_prevented := true; kr_handled := true |}
  else if String.eqb key "Enter" || String.eqb key "Tab" then
    {| kr_popup := fst (selectCurrent p); kr_selected := snd (selectCurrent p);
       kr_prevented := true; kr_handled := true |}
  else if String.eqb key "Escape" then
    {| kr_popup := hide p; kr_selected := []; kr_prevented := true;
       kr_handled := true |}
  else
    {| kr_popup := p; kr_selected := []; kr_prevented := false; kr_handled := false |}.

End Keys.

(** The files that match a query, in the order of the vault. *)
Definition matching_files (files : list TFile) (query : string) : list TFile :=
  List.filter (file_matches (toLowerCase query)) files.

(** A server as the modal stores it, for the examples below. *)
Definition github_server : McpServerConfig := {|
  mcp_id := "mcp-1700000000000";
  mcp_name := "github";
  mcp_command := "npx";
  mcp_args := ["-y"; "@anthropic-ai/mcp-server-github"];
  mcp_env := Some {[ "GITHUB_TOKEN" := "abc=123" ]};
  mcp_enabled := false
|}.

(** A server "files", stored earlier, and the settings that hold it. *)
Definition files_server : McpServerConfig := {|
  mcp_id := "mcp-1600000000000";
  mcp_name := "files";
  mcp_command := "npx";
  mcp_args := ["-y"; "@anthropic-ai/mcp-server-filesystem"; "/vault"];
  mcp_env := None;
  mcp_enabled := true
|}.

Definition settings_with_files : Settings :=
  set_mcpServers default_settings (Some [files_server]).

(** The updates among the operations on a display. *)
Definition updates_of (ops : list display_op) : list PartialToolCall :=
  omap (fun o => match o with DoUpdate u => Some u | _ => None end) ops.

(** A string of decimal digits only. *)
Fixpoint digits_only (s : string) : bool :=
  match s with
  | String c s' => isDigit c && digits_only s'
  | EmptyString => true
  end.

(** A string that does not go on with a digit. *)
Definition no_digit_ahead (s : string) : bool :=
  match s with
  | String c _ => negb (isDigit c)
  | EmptyString => true
  end.

(** * Properties *)

(** ** Appending strings *)

Lemma append_cons (a : ascii) (s t : string) :
  String a s +:+ t = String a (s +:+ t).
Proof. reflexivity. Qed.

Lemma append_nil (t : string) : "" +:+ t = t.
Proof. reflexivity. Qed.

Lemma append_empty_r (s : string) : s +:+ "" = s.
Proof.
  induction s as [| c s IH]; [reflexivity |]. rewrite append_cons. now rewrite IH.
Qed.

Lemma append_assoc (a b c : string) : (a +:+ b) +:+ c = a +:+ (b +:+ c).
Proof.
  induction a as [| x a IH]; [reflexivity |]. rewrite !append_cons. now rewrite IH.
Qed.

(** ** Subagent classification and status *)

Lemma string_eqb_true (a b : string) : String.eqb a b = true <-> a = b.
Proof. apply String.eqb_eq. Qed.

Lemma string_eqb_false (a b : string) : String.eqb a b = false <-> a <> b.
Proof. apply String.eqb_neq. Qed.

(** C2: a tool call is a subagent call exactly when its name is "Task";
    "Skill" and every name with the prefix "mcp__" are not. *)
Theorem isSubagentTool_iff_Task :
  (forall n : string, isSubagentTool n = true <-> n = "Task") /\
  isSubagentTool "Skill" = false /\
  (forall rest : string, isSubagentTool ("mcp__" +:+ rest) = false) /\
  (forall n : string, n <> "Task" -> isSubagentTool n = false).
Proof.
  unfold isSubagentTool. repeat split.
  - apply string_eqb_true.
  - apply string_eqb_true.
  - intros n Hn. now apply string_eqb_false.
Qed.

Lemma all_SubagentStatus_complete (s : SubagentStatus) : s ∈ all_SubagentStatus.
Proof.
  unfold all_SubagentStatus. rewrite !elem_of_cons.
  destruct s; auto 10.
Qed.

Lemma all_SubagentStatus_NoDup : NoDup all_SubagentStatus.
Proof. apply (bool_decide_unpack _). reflexivity. Qed.

(** C3: the subagent states are exactly the six listed ones, and
    [isSubagentRunning] holds exactly for starting, running and
    thinking; it fails for completed, interrupted, error and for an
    undefined status. *)
Theorem isSubagentRunning_iff_non_terminal :
  (forall s : SubagentStatus, s ∈ all_SubagentStatus) /\
  NoDup all_SubagentStatus /\
  (forall s : SubagentStatus,
     isSubagentRunning (Some s) = true <->
     s ∈ [SubStarting; SubRunning; SubThinking]) /\
  (forall s : SubagentStatus,
     s ∈ [SubCompleted; SubInterrupted; SubError] ->
     isSubagentRunning (Some s) = false) /\
  isSubagentRunning None = false.
Proof.
  split; [exact all_SubagentStatus_complete |].
  split; [exact all_SubagentStatus_NoDup |].
  split; [| split; [| reflexivity]].
  - intros s. rewrite !elem_of_cons, elem_of_nil.
    destruct s; cbn; intuition (auto; discriminate).
  - intros s. rewrite !elem_of_cons, elem_of_nil.
    destruct s; cbn; intuition (auto; discriminate).
Qed.

Lemma truthy_status_Some (ss : SubagentStatus) : truthy_status (Some ss) = true.
Proof. now destruct ss. Qed.

(** C9: with [isSubagent] set and a defined subagent status, text and
    class depend on the subagent status alone; otherwise they depend on
    the tool status alone. *)
Theorem subagent_status_takes_precedence :
  (forall (s s' : ToolStatus) (ss : SubagentStatus),
     getToolStatusText s true (Some ss) = getToolStatusText s' true (Some ss) /\
     getToolStatusClass s true (Some ss) = getToolStatusClass s' true (Some ss)) /\
  (forall ss : SubagentStatus,
     getToolStatusText Pending true (Some ss) =
       match ss with
       | SubStarting => "starting..."
       | SubRunning => "running..."
       | SubThinking => "thinking..."
       | SubCompleted => "✓"
       | SubInterrupted => "⚠ interrupted"
       | SubError => "✗"
       end /\
     getToolStatusClass Pending true (Some ss) = SubagentStatus_lit ss) /\
  (forall (s : ToolStatus) (b : bool) (o : option SubagentStatus),
     getToolStatusText s false o = getToolStatusText s b None /\
     getToolStatusClass s false o = getToolStatusClass s b None) /\
  (forall (s : ToolStatus) (b : bool),
     getToolStatusText s b None =
       match s with
       | Pending => "pending"
       | Running => "running..."
       | Success => "✓"
       | Error => "✗"
       end /\
     getToolStatusClass s b None = ToolStatus_lit s).
Proof.
  repeat split.
  - destruct ss; reflexivity.
  - destruct ss; reflexivity.
  - destruct ss; reflexivity.
  - destruct ss; reflexivity.
  - destruct b; reflexivity.
  - destruct b; reflexivity.
  - destruct b; reflexivity.
  - destruct b; reflexivity.
Qed.

(** ** The console logger *)

Lemma ConsoleLogger_index (l : LogLevel) :
  indexOf ConsoleLogger.levels l =
    match l with
    | LDebug => 0%Z
    | LInfo => 1%Z
    | LWarn => 2%Z
    | LError => 3%Z
    end.
Proof. now destruct l. Qed.

Lemma ConsoleLogger_call_unfold (s : LogLevel) (lg : ConsoleLogger.t)
    (ts c m : string) (d : ConsoleLogger.Payload) :
  ConsoleLogger.call s lg ts c m d =
    if ConsoleLogger.shouldLog lg s
    then ConsoleLogger.emit lg s (ConsoleLogger.formatMessage ts s c m d)
    else {| ConsoleLogger.after := lg; ConsoleLogger.thrown := false |}.
Proof. now destruct s. Qed.

Lemma ConsoleLogger_formatMessage_line (ts : string) (s : LogLevel) (c m : string)
    (d : ConsoleLogger.Payload) :
  ConsoleLogger.formatMessage ts s c m d = console_line ts s c m <$> payload_text d.
Proof. destruct s, d; reflexivity. Qed.

Lemma ConsoleLogger_call_level (s : LogLevel) (lg : ConsoleLogger.t)
    (ts c m : string) (d : ConsoleLogger.Payload) :
  ConsoleLogger.getLevel (ConsoleLogger.after (ConsoleLogger.call s lg ts c m d)) =
  ConsoleLogger.getLevel lg.
Proof.
  rewrite ConsoleLogger_call_unfold.
  destruct (ConsoleLogger.shouldLog lg s); [| reflexivity].
  now destruct (ConsoleLogger.formatMessage ts s c m d).
Qed.

Lemma ConsoleLogger_run_level (ops : list ConsoleLogger.op) :
  forall lg : ConsoleLogger.t,
    ConsoleLogger.getLevel (ConsoleLogger.run lg ops) =
    ConsoleLogger.last_level (ConsoleLogger.getLevel lg) ops.
Proof.
  induction ops as [| o ops IH]; intros lg; [reflexivity |].
  unfold ConsoleLogger.run in *. cbn [foldl]. rewrite IH.
  destruct o as [s ts c m d | l]; cbn [ConsoleLogger.step ConsoleLogger.last_level].
  - now rewrite ConsoleLogger_call_level.
  - reflexivity.
Qed.

Lemma app_one_more {A : Type} (l : list A) (x : A) : l <> (l ++ [x])%list.
Proof.
  intros H. apply (f_equal length) in H. rewrite length_app in H. cbn in H. lia.
Qed.

(** The level filter on every call.  The levels are ordered debug,
    info, warn, error by their index.  After [setLevel L], a call at
    severity [S] whose index is below the index of [L] writes nothing
    and returns, whatever its payload.  A call whose index is at least
    the index of [L] writes one line through the console method of
    [S], which reads "[time] [LEVEL] [component] message", followed by
    a blank and the JSON text of the payload when there is a payload;
    when the payload cannot be serialised the call throws instead and
    writes nothing.  So a line is written exactly when the index of [S]
    is at least the index of [L] and the payload can be serialised.  No
    call changes the level; [getLevel] returns the level set last,
    "info" at first when no minimum level was supplied. *)
Lemma console_logger_respects_level :
  (indexOf ConsoleLogger.levels LDebug = 0%Z /\
   indexOf ConsoleLogger.levels LInfo = 1%Z /\
   indexOf ConsoleLogger.levels LWarn = 2%Z /\
   indexOf ConsoleLogger.levels LError = 3%Z) /\
  (forall (lg : ConsoleLogger.t) (L S : LogLevel) (ts c m : string)
          (d : ConsoleLogger.Payload),
     let lg' := ConsoleLogger.setLevel lg L in
     let r := ConsoleLogger.call S lg' ts c m d in
     ((indexOf ConsoleLogger.levels S < indexOf ConsoleLogger.levels L)%Z ->
        r = {| ConsoleLogger.after := lg'; ConsoleLogger.thrown := false |}) /\
     ((indexOf ConsoleLogger.levels S >= indexOf ConsoleLogger.levels L)%Z ->
        match d with
        | ConsoleLogger.NoData =>
            ConsoleLogger.thrown r = false /\
            ConsoleLogger.console (ConsoleLogger.after r) =
              (ConsoleLogger.console lg ++
                 [(S, "[" +:+ ts +:+ "] [" +:+ level_tag S +:+ "] [" +:+ c
                        +:+ "] " +:+ m)])%list
        | ConsoleLogger.Json text =>
            ConsoleLogger.thrown r = false /\
            ConsoleLogger.console (ConsoleLogger.after r) =
              (ConsoleLogger.console lg ++
                 [(S, "[" +:+ ts +:+ "] [" +:+ level_tag S +:+ "] [" +:+ c
                        +:+ "] " +:+ m +:+ " " +:+ text)])%list
        | ConsoleLogger.NoJson =>
            ConsoleLogger.thrown r = false /\
            ConsoleLogger.console (ConsoleLogger.after r) =
              (ConsoleLogger.console lg ++
                 [(S, "[" +:+ ts +:+ "] [" +:+ level_tag S +:+ "] [" +:+ c
                        +:+ "] " +:+ m +:+ " undefined")])%list
        | ConsoleLogger.Circular =>
            r = {| ConsoleLogger.after := lg'; ConsoleLogger.thrown := true |}
        end) /\
     (emitted lg' (ConsoleLogger.after r) <->
        (indexOf ConsoleLogger.levels S >= indexOf ConsoleLogger.levels L)%Z /\
        d <> ConsoleLogger.Circular) /\
     ConsoleLogger.getLevel (ConsoleLogger.after r) = L) /\
  (forall (lg : ConsoleLogger.t) (L : LogLevel),
     ConsoleLogger.getLevel (ConsoleLogger.setLevel lg L) = L) /\
  ConsoleLogger.getLevel (ConsoleLogger.createConsoleLogger None) = LInfo /\
  (forall (minLevel : option LogLevel) (ops : list ConsoleLogger.op),
     ConsoleLogger.getLevel
       (ConsoleLogger.run (ConsoleLogger.createConsoleLogger minLevel) ops) =
     ConsoleLogger.last_level (default LInfo minLevel) ops).
Proof.
  split; [now repeat split |].
  split; [| split; [reflexivity | split; [reflexivity |]]].
  - intros lg L S ts c m d lg' r.
    assert (HL : ConsoleLogger.getLevel (ConsoleLogger.after r) = L)
      by (subst r; now rewrite ConsoleLogger_call_level).
    subst r. rewrite ConsoleLogger_call_unfold, ConsoleLogger_formatMessage_line in *.
    unfold ConsoleLogger.shouldLog in *.
    cbn [ConsoleLogger.currentLevel lg' ConsoleLogger.setLevel] in *.
    destruct (Z.leb_spec (indexOf ConsoleLogger.levels L)
                         (indexOf ConsoleLogger.levels S)) as [Hle | Hlt].
    + split; [intros Hn; lia |]. split; [| split; [| exact HL]].
      * intros _. destruct d; cbn; unfold console_line;
          rewrite ?append_empty_r; auto.
      * split.
        -- intros [line Hline]. split; [lia |]. intros ->.
           cbn in Hline. now apply app_one_more in Hline.
        -- intros [_ Hd]. destruct d; [| | | congruence]; cbn; eexists; reflexivity.
    + split; [intros _; reflexivity |]. split; [intros Hn; lia |].
      split; [| exact HL]. split.
      * intros [line Hline]. cbn in Hline. now apply app_one_more in Hline.
      * intros [Hn _]. lia.
  - intros minLevel ops. apply ConsoleLogger_run_level.
Qed.

(** C4: a call at or above the level is not emitted when its payload
    cannot be serialised.  At the level "info" a call of [error] is at
    or above the level; with a payload for which [JSON.stringify]
    throws, the call throws, the console stays empty and the logger is
    what it was.  So it is not true of every call that it is emitted
    exactly when its index is at least the index of the level. *)
Theorem error_with_circular_payload_throws :
  (indexOf ConsoleLogger.levels LError >= indexOf ConsoleLogger.levels LInfo)%Z /\
  ConsoleLogger.call LError
      (ConsoleLogger.setLevel (ConsoleLogger.createConsoleLogger None) LInfo)
      "2026-01-01T00:00:00.000Z" "Agent" "query failed" ConsoleLogger.Circular =
    {| ConsoleLogger.after :=
         ConsoleLogger.setLevel (ConsoleLogger.createConsoleLogger None) LInfo;
       ConsoleLogger.thrown := true |} /\
  ConsoleLogger.console
    (ConsoleLogger.setLevel (ConsoleLogger.createConsoleLogger None) LInfo) = [] /\
  ~ every_call_at_or_above_level_is_emitted.
Proof.
  split; [rewrite !ConsoleLogger_index; lia |]. split; [reflexivity |].
  split; [reflexivity |].
  intros H.
  destruct (proj2 (H (ConsoleLogger.createConsoleLogger None) LInfo LError
                     "2026-01-01T00:00:00.000Z" "Agent" "query failed"
                     ConsoleLogger.Circular)) as [line Hline];
    [rewrite !ConsoleLogger_index; lia |].
  cbn in Hline. destruct line; discriminate Hline.
Qed.

(** ** The always-allowed chips *)

Lemma filter_ne_count (t x : string) (l : list string) :
  x <> t ->
  filter (fun y => y = x) (filter (fun y => y <> t) l) = filter (fun y => y = x) l.
Proof.
  intros Hx. induction l as [| a l IH]; [reflexivity |].
  rewrite (filter_cons (fun y => y <> t)). destruct (decide (a <> t)) as [Ha | Ha].
  - rewrite !filter_cons. destruct (decide (a = x)); now rewrite IH.
  - rewrite IH, filter_cons. destruct (decide (a = x)) as [-> | _]; [| reflexivity].
    exfalso. apply Ha. exact Hx.
Qed.

(** C7: removing [t] replaces the always-allowed list by its entries
    different from [t]: [t] is then absent, every other entry keeps its
    occurrences and its place in the order, and no other field of the
    settings changes. *)
Theorem removeAlwaysAllowed_only_removes_tool :
  forall (t : string) (st : Settings),
    let st' := removeAlwaysAllowed t st in
    alwaysAllowedTools st' = filter (fun x => x <> t) (alwaysAllowedTools st) /\
    (t ∉ alwaysAllowedTools st') /\
    (alwaysAllowedTools st' `sublist_of` alwaysAllowedTools st) /\
    (forall x : string, x <> t ->
       filter (fun y => y = x) (alwaysAllowedTools st') =
       filter (fun y => y = x) (alwaysAllowedTools st)) /\
    (forall x : string, x <> t ->
       (x ∈ alwaysAllowedTools st' <-> x ∈ alwaysAllowedTools st)) /\
    apiKey st' = apiKey st /\ model st' = model st /\
    autoApproveVaultReads st' = autoApproveVaultReads st /\
    autoApproveVaultWrites st' = autoApproveVaultWrites st /\
    requireBashApproval st' = requireBashApproval st /\
    maxBudgetPerSession st' = maxBudgetPerSession st /\
    maxTurns st' = maxTurns st /\
    mcpServers st' = mcpServers st.
Proof.
  intros t st st'. subst st'. cbn.
  split; [reflexivity |].
  split; [rewrite list_elem_of_filter; tauto |].
  split; [apply sublist_filter |].
  split; [intros x Hx; now apply filter_ne_count |].
  split; [| now repeat split].
  intros x Hx. rewrite list_elem_of_filter. tauto.
Qed.

(** ** Updates of a tool call *)

Lemma update_status (d : ToolCallDisplay) (u : PartialToolCall) :
  tc_status (toolCall (update d u)) = default (tc_status (toolCall d)) (p_status u).
Proof. reflexivity. Qed.

Lemma update_all_status (us : list PartialToolCall) :
  forall d : ToolCallDisplay,
    tc_status (toolCall (update_all d us)) =
    default (tc_status (toolCall d)) (last (omap p_status us)).
Proof.
  induction us as [| u us IH]; intros d; [reflexivity |].
  unfold update_all in *. cbn [foldl]. rewrite IH, update_status.
  cbn [omap list_omap]. destruct (p_status u) as [s |]; cbn [default]; [| reflexivity].
  rewrite last_cons. now destruct (last (omap p_status us)).
Qed.

(** C1, as stated, fails: [update] applied to a finished call with the
    update [{ status: "pending" }] returns the call to pending. *)
Lemma update_reopens_completed_call :
  completed (tc_status (toolCall finished_call)) /\
  tc_status (toolCall (update finished_call status_pending)) = Pending /\
  ~ update_is_monotone.
Proof.
  split; [now left |]. split; [reflexivity |].
  intros H. destruct (H finished_call status_pending) as [Heq | Hstep].
  - discriminate Heq.
  - inversion Hstep.
Qed.

(** C1, amended: [update] merges the update as it is given.  The status
    afterwards is the one the update carries, and the previous one when
    it carries none; after a sequence of updates it is the last status
    carried, so a status is left only by an update that carries another
    one, and a sequence of updates that carry no status leaves a
    completed call completed. *)
Theorem update_status_follows_updates :
  (forall (d : ToolCallDisplay) (u : PartialToolCall),
     tc_status (toolCall (update d u)) =
     default (tc_status (toolCall d)) (p_status u)) /\
  (forall (d : ToolCallDisplay) (us : list PartialToolCall),
     tc_status (toolCall (update_all d us)) =
     default (tc_status (toolCall d)) (last (omap p_status us))) /\
  (forall (d : ToolCallDisplay) (u : PartialToolCall),
     tc_status (toolCall (update d u)) <> tc_status (toolCall d) ->
     p_status u = Some (tc_status (toolCall (update d u)))) /\
  (forall (d : ToolCallDisplay) (us : list PartialToolCall),
     Forall (fun u => p_status u = None) us ->
     completed (tc_status (toolCall d)) ->
     completed (tc_status (toolCall (update_all d us))) /\
     tc_status (toolCall (update_all d us)) = tc_status (toolCall d)).
Proof.
  split; [exact update_status |]. split; [intros d us; apply update_all_status |].
  split.
  - intros d u. rewrite update_status.
    destruct (p_status u) as [s |]; cbn [default]; [reflexivity | congruence].
  - intros d us Hus Hd.
    assert (Hsame : tc_status (toolCall (update_all d us)) = tc_status (toolCall d)).
    { rewrite update_all_status.
      replace (omap p_status us) with (@nil ToolStatus); [reflexivity |].
      induction Hus as [| u us Hu _ IH]; [reflexivity |].
      cbn [omap list_omap]. now rewrite Hu. }
    now rewrite Hsame.
Qed.

(** ** Display names *)

Lemma prefix_slice (p : string) :
  forall s : string,
    String.prefix p s = true -> s = p +:+ slice_from (String.length p) s.
Proof.
  induction p as [| a p IH]; intros s H; [reflexivity |].
  destruct s as [| b s]; [discriminate |]. cbn in H.
  destruct (ascii_dec a b) as [-> | _]; [| discriminate].
  rewrite append_cons. cbn [String.length slice_from]. f_equal. now apply IH.
Qed.

Lemma prefix_append (p rest : string) : String.prefix p (p +:+ rest) = true.
Proof.
  induction p as [| a p IH]; [now destruct rest |].
  rewrite append_cons. cbn [String.prefix].
  destruct (ascii_dec a a); [exact IH | congruence].
Qed.

Lemma slice_from_append (p rest : string) :
  slice_from (String.length p) (p +:+ rest) = rest.
Proof.
  induction p as [| a p IH]; [reflexivity |].
  rewrite append_cons. exact IH.
Qed.

Lemma replace_first_prefix (p rep rest : string) :
  replace_first p rep (p +:+ rest) = rep +:+ rest.
Proof.
  destruct (p +:+ rest) as [| c s] eqn:E.
  - destruct p; [| rewrite append_cons in E; discriminate].
    rewrite append_nil in E. subst rest. reflexivity.
  - cbn [replace_first]. rewrite <- E, prefix_append, slice_from_append.
    reflexivity.
Qed.

Lemma replace_underscores_length (s : string) :
  String.length (replace_underscores s) = String.length s.
Proof. induction s as [| c s IH]; [reflexivity |]. cbn. now rewrite IH. Qed.

Lemma replace_underscores_get (s : string) :
  forall n : nat,
    String.get n (replace_underscores s) = underscore_to_space <$> String.get n s.
Proof.
  induction s as [| c s IH]; intros n; [reflexivity |].
  destruct n as [| n]; [reflexivity |]. cbn. apply IH.
Qed.

Lemma getToolDisplayName_obsidian (rest : string) (input : gmap string JSValue) :
  getToolDisplayName ("mcp__obsidian__" +:+ rest) input = replace_underscores rest.
Proof.
  unfold getToolDisplayName, startsWith.
  rewrite prefix_append, replace_first_prefix. reflexivity.
Qed.

(** C8: a name with the prefix "mcp__obsidian__" is shown without the
    prefix and with every underscore turned into a space; "Skill" with
    a truthy [input.skill] and "Task" with a truthy
    [input.subagent_type] are shown with that value appended; every
    other name, those with another "mcp__" namespace included, is shown
    unchanged. *)
Theorem getToolDisplayName_cases :
  (forall (name : string) (input : gmap string JSValue),
     startsWith name "mcp__obsidian__" = true ->
     let rest := slice_from 15 name in
     let shown := getToolDisplayName name input in
     name = "mcp__obsidian__" +:+ rest /\
     shown = replace_underscores rest /\
     String.length shown = String.length rest /\
     forall n : nat, String.get n shown = underscore_to_space <$> String.get n rest) /\
  (forall input : gmap string JSValue,
     ToBoolean (get input "skill") = true ->
     getToolDisplayName "Skill" input = "Skill: " +:+ ToString (get input "skill")) /\
  (forall (input : gmap string JSValue) (skill : string),
     input !! "skill" = Some (JString skill) -> skill <> "" ->
     getToolDisplayName "Skill" input = "Skill: " +:+ skill) /\
  (forall input : gmap string JSValue,
     ToBoolean (get input "subagent_type") = true ->
     getToolDisplayName "Task" input =
       "Task: " +:+ ToString (get input "subagent_type")) /\
  (forall (input : gmap string JSValue) (agent : string),
     input !! "subagent_type" = Some (JString agent) -> agent <> "" ->
     getToolDisplayName "Task" input = "Task: " +:+ agent) /\
  (forall (name : string) (input : gmap string JSValue),
     name <> "Skill" -> name <> "Task" ->
     startsWith name "mcp__obsidian__" = false ->
     getToolDisplayName name input = name) /\
  (forall (rest : string) (input : gmap string JSValue),
     startsWith rest "obsidian__" = false ->
     getToolDisplayName ("mcp__" +:+ rest) input = "mcp__" +:+ rest).
Proof.
  repeat apply conj.
  - intros name input Hp rest shown.
    assert (Hname : name = "mcp__obsidian__" +:+ rest)
      by (apply (prefix_slice "mcp__obsidian__"), Hp).
    assert (Hshown : shown = replace_underscores rest)
      by (subst shown; rewrite Hname at 1; apply getToolDisplayName_obsidian).
    split; [exact Hname |]. split; [exact Hshown |]. rewrite Hshown.
    split; [apply replace_underscores_length | apply replace_underscores_get].
  - intros input H. unfold getToolDisplayName. now rewrite H.
  - intros input skill Hin Hne. unfold getToolDisplayName, get.
    rewrite Hin. cbn. apply string_eqb_false in Hne. now rewrite Hne.
  - intros input H. unfold getToolDisplayName. now rewrite H.
  - intros input agent Hin Hne. unfold getToolDisplayName, get.
    rewrite Hin. cbn. apply string_eqb_false in Hne. now rewrite Hne.
  - intros name input H1 H2 H3. unfold getToolDisplayName.
    apply string_eqb_false in H1, H2. now rewrite H1, H2, H3.
  - intros rest input H. unfold getToolDisplayName, startsWith in *.
    rewrite !append_cons, append_nil. cbn. now rewrite H.
Qed.

(** ** The number fields of the settings tab *)

Lemma onChange_maxTurns_guard (st : Settings) (value : string) :
  onChange_maxTurns st value =
    if negb (isNaN (parseInt value)) && gt0 (parseInt value)
    then set_maxTurns st (parseInt value) else st.
Proof. reflexivity. Qed.

Lemma onChange_maxBudgetPerSession_guard (parseFloat : string -> JSNumber)
    (st : Settings) (value : string) :
  onChange_maxBudgetPerSession parseFloat st value =
    if negb (isNaN (parseFloat value)) && gt0 (parseFloat value)
    then set_maxBudgetPerSession st (parseFloat value) else st.
Proof. reflexivity. Qed.

(** [parseInt] returns [NaN], an infinity or an integer. *)
Lemma parseInt_range (s : string) :
  parseInt s = NaN \/ parseInt s = PosInf \/ parseInt s = NegInf \/
  isInteger (parseInt s) = true.
Proof.
  unfold parseInt.
  destruct (match trimStart s with
            | String "-" rest => ((-1)%Z, rest)
            | String "+" rest => (1%Z, rest)
            | _ => (1%Z, trimStart s)
            end) as [sign body].
  destruct (leading_digits body) as [| d ds]; [now left |].
  unfold Number_of_Z.
  repeat match goal with
         | |- context [if ?b then _ else _] => destruct b
         end; auto.
  all: right; right; right; cbn [isInteger inject_Z Qnum Qden];
    now rewrite Z.mod_1_r.
Qed.

(** An edit of the turns field leaves the settings alone, or stores
    the parsed number, which is then a positive integer or
    [Infinity]. *)
Lemma onChange_maxTurns_result (st : Settings) (value : string) :
  onChange_maxTurns st value = st \/
  (onChange_maxTurns st value = set_maxTurns st (parseInt value) /\
   (parseInt value = PosInf \/ positive_integer (parseInt value))).
Proof.
  rewrite onChange_maxTurns_guard.
  destruct (isNaN (parseInt value)) eqn:E1; cbn [negb andb]; [now left |].
  destruct (gt0 (parseInt value)) eqn:E2; [| now left].
  right. split; [reflexivity |].
  destruct (parseInt_range value) as [H | [H | [H | H]]].
  - rewrite H in E1. discriminate E1.
  - now left.
  - rewrite H in E2. discriminate E2.
  - right. now split.
Qed.

(** Each edit keeps the two numbers not-[NaN] and greater than zero. *)
Lemma apply_edit_positive (parseFloat : string -> JSNumber) (e : edit)
    (st : Settings) :
  positive (maxBudgetPerSession st) -> positive (maxTurns st) ->
  positive (maxBudgetPerSession (apply_edit parseFloat st e)) /\
  positive (maxTurns (apply_edit parseFloat st e)).
Proof.
  intros Hb Ht. destruct e as [v | v]; cbn [apply_edit].
  - rewrite onChange_maxBudgetPerSession_guard.
    destruct (isNaN (parseFloat v)) eqn:E1; cbn [negb andb]; [now split |].
    destruct (gt0 (parseFloat v)) eqn:E2; [| now split].
    split; [split; assumption | exact Ht].
  - rewrite onChange_maxTurns_guard.
    destruct (isNaN (parseInt v)) eqn:E1; cbn [negb andb]; [now split |].
    destruct (gt0 (parseInt v)) eqn:E2; [| now split].
    split; [exact Hb | split; assumption].
Qed.

Lemma apply_edits_positive (parseFloat : string -> JSNumber) (es : list edit) :
  forall st : Settings,
    positive (maxBudgetPerSession st) -> positive (maxTurns st) ->
    positive (maxBudgetPerSession (apply_edits parseFloat st es)) /\
    positive (maxTurns (apply_edits parseFloat st es)).
Proof.
  induction es as [| e es IH]; intros st Hb Ht; [now split |].
  unfold apply_edits in *. cbn [foldl].
  destruct (apply_edit_positive parseFloat e st Hb Ht) as [Hb' Ht'].
  now apply IH.
Qed.

(** C5, at the input that breaks it: the field "Max turns per query"
    holds the positive integer 50; the user enters the numeral
    [10^309]; [parseInt] returns [Infinity], the guard lets it through,
    and [maxTurns] is no longer a positive integer. *)
Theorem maxTurns_overflowing_numeral_stored_as_infinity :
  positive_integer (maxTurns default_settings) /\
  parseInt numeral_10_pow_309 = PosInf /\
  maxTurns (onChange_maxTurns default_settings numeral_10_pow_309) = PosInf /\
  ~ positive_integer
      (maxTurns (onChange_maxTurns default_settings numeral_10_pow_309)).
Proof.
  assert (Hp : parseInt numeral_10_pow_309 = PosInf) by (vm_compute; reflexivity).
  assert (Hm : maxTurns (onChange_maxTurns default_settings numeral_10_pow_309)
               = PosInf)
    by (rewrite onChange_maxTurns_guard, Hp; reflexivity).
  split; [split; reflexivity |]. split; [exact Hp |]. split; [exact Hm |].
  rewrite Hm. intros [Hint _]. discriminate Hint.
Qed.

(** ** The autocomplete popup *)

Lemma getFileSuggestions_length (files : list TFile) (query : string) :
  length (getFileSuggestions files query) <= 10.
Proof.
  unfold getFileSuggestions. rewrite length_fmap, length_take. lia.
Qed.

Lemma getFileSuggestions_elem (files : list TFile) (query : string)
    (sg : Suggestion) :
  sg ∈ getFileSuggestions files query ->
  exists f, f ∈ files /\ sg = file_suggestion f /\
            file_matches (toLowerCase query) f = true.
Proof.
  unfold getFileSuggestions. intros H.
  apply list_elem_of_fmap in H as (f & -> & Hf).
  apply elem_of_take in Hf as (i & Hi & _).
  apply list_elem_of_lookup_2, list_elem_of_In, filter_In in Hi as [Hin Hm].
  exists f. split; [now apply list_elem_of_In |]. now split.
Qed.

(** The internal flag after [show]: [render] calls [hide], which clears
    it again, so [isVisible()] is false whatever was found. *)
Lemma show_leaves_visible_flag_cleared (cmds : string -> list Suggestion)
    (files : list TFile) (p : AutocompletePopup) (type : SuggestionType)
    (query : string) :
  isVisible (show cmds files p type query) = false.
Proof.
  unfold show. cbn [suggestions].
  now destruct (length (getSuggestions cmds files type query) =? 0)%nat.
Qed.

(** C10, as stated, fails: the query "notes" finds the note
    "Notes/A.md", although neither its path nor its base name contains
    "notes"; and after [show] has found it, [isVisible()] is false. *)
Lemma query_matches_only_lowercased_path :
  getFileSuggestions [notes_file] "notes" = [file_suggestion notes_file] /\
  includes (f_path notes_file) (toLowerCase "notes") = false /\
  includes (f_basename notes_file) (toLowerCase "notes") = false /\
  isVisible (show (fun _ => []) [notes_file] new_popup TFileSuggestion "notes")
    = false /\
  ~ suggestions_contain_lowercased_query.
Proof.
  split; [reflexivity |]. split; [reflexivity |]. split; [reflexivity |].
  split; [reflexivity |].
  intros H.
  destruct (H [notes_file] "notes" (file_suggestion notes_file))
    as (f & Hin & _ & Hor).
  - apply list_elem_of_singleton. reflexivity.
  - apply list_elem_of_singleton in Hin. subst f.
    destruct Hor as [Hc | Hc]; vm_compute in Hc; discriminate Hc.
Qed.

(** C10, amended: [getFileSuggestions] returns at most ten suggestions,
    each built from a vault file whose lower-cased path or lower-cased
    base name contains the lower-cased query; after [show] the popup
    holds the suggestions found, its list is attached exactly when
    there is at least one, and then the selection is index 0 and the
    first item is the selected one. *)
Theorem file_suggestions_capped_and_matched_ignoring_case :
  (forall (files : list TFile) (query : string),
     length (getFileSuggestions files query) <= 10) /\
  (forall (files : list TFile) (query : string) (sg : Suggestion),
     sg ∈ getFileSuggestions files query ->
     exists f, f ∈ files /\ sg = file_suggestion f /\
       (includes (toLowerCase (f_path f)) (toLowerCase query) = true \/
        includes (toLowerCase (f_basename f)) (toLowerCase query) = true)) /\
  (forall (cmds : string -> list Suggestion) (files : list TFile)
          (p : AutocompletePopup) (type : SuggestionType) (query : string),
     let p' := show cmds files p type query in
     suggestions p' = getSuggestions cmds files type query /\
     (is_Some (containerEl p') <-> suggestions p' <> []) /\
     (suggestions p' <> [] ->
        selectedIndex p' = 0 /\
        containerEl p' = Some (render_items 0 (suggestions p')))).
Proof.
  split; [exact getFileSuggestions_length |]. split.
  - intros files query sg H.
    destruct (getFileSuggestions_elem files query sg H) as (f & Hin & Heq & Hm).
    exists f. split; [exact Hin |]. split; [exact Heq |].
    unfold file_matches in Hm. now apply orb_true_iff in Hm.
  - intros cmds files p type query p'. subst p'. unfold show. cbn [suggestions].
    destruct (getSuggestions cmds files type query) as [| sg sgs];
      cbn [length Nat.eqb hide render_popup suggestions containerEl selectedIndex].
    + split; [reflexivity |]. split; [| congruence].
      split; [intros [x Hx]; discriminate Hx | congruence].
    + split; [reflexivity |]. split; [| intros _; now split].
      split; [congruence | intros _; eexists; reflexivity].
Qed.

(** ** Trimming and splitting *)

Lemma string_eqb_empty (s : string) :
  String.eqb s "" = match s with EmptyString => true | String _ _ => false end.
Proof. now destruct s. Qed.

Lemma trimStart_blank (s : string) : trimStart s = "" <-> blank s = true.
Proof.
  induction s as [| c s IH]; [easy |]. cbn.
  destruct (isWhiteSpace c); cbn; [exact IH | easy].
Qed.

Lemma trimEnd_blank (s : string) : trimEnd s = "" <-> blank s = true.
Proof.
  induction s as [| c s IH]; [easy |]. cbn.
  destruct (isWhiteSpace c); cbn; [| easy].
  rewrite string_eqb_empty. destruct (trimEnd s) eqn:E.
  - split; [intros _; now apply IH | reflexivity].
  - split; [discriminate |]. intros H. apply IH in H. discriminate H.
Qed.

Lemma trimStart_head (s : string) :
  match trimStart s with
  | String c _ => isWhiteSpace c = false
  | EmptyString => True
  end.
Proof.
  induction s as [| c s IH]; [exact I |]. cbn.
  destruct (isWhiteSpace c) eqn:E; [exact IH | exact E].
Qed.

Lemma trimStart_blank_inv (s : string) : blank (trimStart s) = true -> blank s = true.
Proof.
  intros H. apply trimStart_blank.
  pose proof (trimStart_head s) as Hh.
  destruct (trimStart s) as [| c r]; [reflexivity |].
  cbn in H. rewrite Hh in H. discriminate H.
Qed.

Lemma trim_blank (s : string) : trim s = "" <-> blank s = true.
Proof.
  unfold trim. rewrite trimEnd_blank. split.
  - apply trimStart_blank_inv.
  - intros H. apply trimStart_blank in H. now rewrite H.
Qed.

Lemma trimEnd_cons_keep (c : ascii) (s : string) :
  isWhiteSpace c = false -> trimEnd (String c s) = String c (trimEnd s).
Proof. intros H. cbn. now rewrite H. Qed.

Lemma trimEnd_idem (s : string) : trimEnd (trimEnd s) = trimEnd s.
Proof.
  induction s as [| c s IH]; [reflexivity |]. cbn [trimEnd].
  destruct (isWhiteSpace c && String.eqb (trimEnd s) "") eqn:E; [reflexivity |].
  cbn [trimEnd]. now rewrite IH, E.
Qed.

(** A fixed point of [trimEnd] that starts with white space goes on
    with a non-empty fixed point. *)
Lemma trimEnd_fixed_tail (c : ascii) (s : string) :
  trimEnd (String c s) = String c s ->
  trimEnd s = s /\ (isWhiteSpace c = true -> s <> "").
Proof.
  cbn [trimEnd]. rewrite string_eqb_empty.
  destruct (isWhiteSpace c); cbn [andb].
  - destruct (trimEnd s) eqn:E; [discriminate |].
    intros H. injection H as H. split; [exact H | intros _; now rewrite <- H].
  - intros H. injection H as H. split; [exact H | discriminate].
Qed.

Lemma words_acc_blank (s : string) : blank s = true -> words_acc s "" = [].
Proof.
  induction s as [| c s IH]; [reflexivity |]. cbn.
  destruct (isWhiteSpace c); cbn; [exact IH | discriminate].
Qed.

Lemma words_trimStart (s : string) : words (trimStart s) = words s.
Proof.
  unfold words. induction s as [| c s IH]; [reflexivity |]. cbn.
  destruct (isWhiteSpace c) eqn:E; [exact IH |]. cbn. now rewrite E.
Qed.

Lemma words_acc_trimEnd (s : string) :
  forall cur : string, words_acc (trimEnd s) cur = words_acc s cur.
Proof.
  induction s as [| c s IH]; intros cur; [reflexivity |]. cbn [trimEnd].
  destruct (isWhiteSpace c) eqn:Ec; cbn [andb].
  - destruct (String.eqb (trimEnd s) "") eqn:E.
    + apply string_eqb_true, trimEnd_blank in E.
      cbn [words_acc]. rewrite Ec, (words_acc_blank s E).
      now destruct (String.eqb cur "").
    + cbn [words_acc]. rewrite Ec, !IH. reflexivity.
  - cbn [words_acc]. rewrite Ec. apply IH.
Qed.

Lemma append_not_empty (cur : string) (c : ascii) : cur +:+ String c "" <> "".
Proof. destruct cur; [rewrite append_nil | rewrite append_cons]; discriminate. Qed.

(** On a string without trailing white space, [split(/\s+/)] and
    [words] agree, both inside a word and inside a run of white space. *)
Lemma split_ws_acc_words (s : string) :
  trimEnd s = s ->
  (forall cur : string, cur <> "" -> split_ws_acc s cur false = words_acc s cur) /\
  (s <> "" -> split_ws_acc s "" true = words_acc s "").
Proof.
  induction s as [| c s IH]; intros Hfix.
  - split; [| congruence]. intros cur Hcur. cbn.
    apply string_eqb_false in Hcur. now rewrite Hcur.
  - destruct (trimEnd_fixed_tail c s Hfix) as [Hs Hne].
    destruct (IH Hs) as [IHword IHrun]. split.
    + intros cur Hcur. cbn. apply string_eqb_false in Hcur.
      destruct (isWhiteSpace c) eqn:Ec.
      * rewrite Hcur. f_equal. now apply IHrun, Hne.
      * apply IHword, append_not_empty.
    + intros _. cbn. destruct (isWhiteSpace c) eqn:Ec.
      * now apply IHrun, Hne.
      * apply IHword, append_not_empty.
Qed.

(** The arguments computed by [save] are the words of the input. *)
Lemma split_trim_words (s : string) :
  (if String.eqb (trim s) "" then [] else split_ws (trim s)) = words s.
Proof.
  rewrite <- words_trimStart. unfold trim.
  pose proof (trimStart_head s) as Hh.
  destruct (trimStart s) as [| c u]; [reflexivity |].
  rewrite (trimEnd_cons_keep c u Hh). cbn [String.eqb].
  unfold split_ws, words. cbn [split_ws_acc words_acc]. rewrite Hh, append_nil.
  destruct (split_ws_acc_words (trimEnd u) (trimEnd_idem u)) as [Hword _].
  rewrite Hword by discriminate. apply words_acc_trimEnd.
Qed.

(** ** The lines of the environment textarea *)

Lemma indexOf_char_from_absent (c : ascii) (s : string) :
  forall i : Z, occurs c s = false -> indexOf_char_from c s i = (-1)%Z.
Proof.
  induction s as [| d s IH]; intros i H; [reflexivity |]. cbn in H |- *.
  destruct (Ascii.eqb d c); [discriminate |]. now apply IH.
Qed.

Lemma indexOf_char_from_first (c : ascii) (pre post : string) :
  forall i : Z,
    occurs c pre = false ->
    indexOf_char_from c (pre +:+ String c post) i =
    (i + Z.of_nat (String.length pre))%Z.
Proof.
  induction pre as [| d pre IH]; intros i H.
  - rewrite append_nil. cbn. rewrite Ascii.eqb_refl. lia.
  - rewrite append_cons. cbn in H |- *.
    destruct (Ascii.eqb d c); [discriminate |].
    rewrite IH by exact H. lia.
Qed.

Lemma occurs_first (c : ascii) (s : string) :
  occurs c s = true ->
  exists pre post : string, s = pre +:+ String c post /\ occurs c pre = false.
Proof.
  induction s as [| d s IH]; [discriminate |]. cbn.
  destruct (Ascii.eqb d c) eqn:E.
  - intros _. apply Ascii.eqb_eq in E. subst d. now exists "", s.
  - intros H. destruct (IH H) as (pre & post & -> & Hpre).
    exists (String d pre), post. split; [reflexivity |]. cbn. now rewrite E.
Qed.

Lemma occurs_append (c : ascii) (pre post : string) :
  occurs c (pre +:+ String c post) = true.
Proof.
  induction pre as [| d pre IH].
  - rewrite append_nil. cbn. now rewrite Ascii.eqb_refl.
  - rewrite append_cons. cbn. rewrite IH. apply orb_true_r.
Qed.

Lemma first_occurrence_unique (c : ascii) (pre : string) :
  forall pre' post post' : string,
    occurs c pre = false -> occurs c pre' = false ->
    pre +:+ String c post = pre' +:+ String c post' ->
    pre = pre' /\ post = post'.
Proof.
  induction pre as [| d pre IH]; intros pre' post post' H H' E.
  - destruct pre' as [| d' pre'].
    + rewrite !append_nil in E. now injection E.
    + rewrite append_nil, append_cons in E. injection E as <- _.
      cbn in H'. now rewrite Ascii.eqb_refl in H'.
  - destruct pre' as [| d' pre'].
    + rewrite append_nil, append_cons in E. injection E as -> _.
      cbn in H. now rewrite Ascii.eqb_refl in H.
    + rewrite !append_cons in E. injection E as -> E.
      cbn in H, H'. apply orb_false_iff in H as [_ H], H' as [_ H'].
      destruct (IH pre' post post' H H' E) as [-> ->]. now split.
Qed.

Lemma slice_to_append (pre rest : string) :
  slice_to (String.length pre) (pre +:+ rest) = pre.
Proof.
  induction pre as [| d pre IH]; [now destruct rest |].
  rewrite append_cons. cbn. now rewrite IH.
Qed.

Lemma slice_from_after (c : ascii) (pre post : string) :
  slice_from (S (String.length pre)) (pre +:+ String c post) = post.
Proof.
  induction pre as [| d pre IH]; [reflexivity |].
  rewrite append_cons. exact IH.
Qed.

Lemma blank_no_equals (s : string) : blank s = true -> occurs "=" s = false.
Proof.
  induction s as [| c s IH]; [reflexivity |]. cbn.
  intros H. apply andb_true_iff in H as [Hc Hs]. rewrite (IH Hs).
  destruct (Ascii.eqb c "=") eqn:E; [| reflexivity].
  apply Ascii.eqb_eq in E. subst c. discriminate Hc.
Qed.

Lemma assigns_occurs (line key value : string) :
  assigns line key value -> occurs "=" line = true.
Proof. intros (pre & post & -> & _). apply occurs_append. Qed.

Lemma assigns_functional (line k v k' v' : string) :
  assigns line k v -> assigns line k' v' -> k = k' /\ v = v'.
Proof.
  intros (pre & post & -> & Hp & -> & _ & ->) (pre' & post' & E & Hp' & -> & _ & ->).
  destruct (first_occurrence_unique "=" pre pre' post post' Hp Hp' E) as [-> ->].
  now split.
Qed.

(** What one line does to [env]: it sets the property it assigns, or
    it has not the form KEY=value and leaves [env] alone. *)
Lemma env_step_cases (line : string) :
  (exists k v : string,
     assigns line k v /\
     forall env : gmap string string, env_step env line = set_property env k v) \/
  ((forall k v : string, ~ assigns line k v) /\
   forall env : gmap string string, env_step env line = env).
Proof.
  destruct (occurs "=" line) eqn:Ho.
  - destruct (occurs_first "=" line Ho) as (pre & post & -> & Hpre).
    assert (Hidx : indexOf_char "=" (pre +:+ String "=" post)
                   = Z.of_nat (String.length pre))
      by (unfold indexOf_char; now rewrite indexOf_char_from_first).
    destruct (String.eqb (trim pre) "") eqn:Ek.
    + right. apply string_eqb_true in Ek. split.
      * intros k v (pre' & post' & E & Hp' & -> & Hne & _).
        destruct (first_occurrence_unique "=" pre pre' post post' Hpre Hp' E)
          as [<- _].
        now apply Hne.
      * intros env. unfold env_step. rewrite Hidx.
        destruct (0 <? Z.of_nat (String.length pre))%Z; [| reflexivity].
        rewrite Nat2Z.id, slice_to_append, Ek. reflexivity.
    + left. exists (trim pre), (trim post). apply string_eqb_false in Ek. split.
      * exists pre, post. now repeat split.
      * intros env. unfold env_step. rewrite Hidx.
        destruct pre as [| d pre]; [now elim Ek |].
        replace (0 <? Z.of_nat (String.length (String d pre)))%Z with true
          by (symmetry; apply Z.ltb_lt; cbn; lia).
        rewrite Nat2Z.id, slice_to_append.
        replace (Z.to_nat (Z.of_nat (String.length (String d pre)) + 1))
          with (S (String.length (String d pre))) by lia.
        rewrite slice_from_after. apply string_eqb_false in Ek.
        now rewrite Ek.
  - right. split.
    + intros k v H. apply assigns_occurs in H. congruence.
    + intros env. unfold env_step, indexOf_char.
      now rewrite indexOf_char_from_absent.
Qed.

(** What one line does to the key [k]: it binds [k] when it assigns to
    it and [k] is not "__proto__", and leaves the binding of [k] alone
    otherwise. *)
Lemma env_step_key (line k : string) :
  (exists v : string,
     assigns line k v /\ k <> "__proto__" /\
     forall env : gmap string string, env_step env line !! k = Some v) \/
  ((k = "__proto__" \/ forall v : string, ~ assigns line k v) /\
   forall env : gmap string string, env_step env line !! k = env !! k).
Proof.
  destruct (env_step_cases line) as [(k0 & v0 & Ha & Hstep) | [Hno Hstep]].
  - destruct (decide (k0 = k)) as [-> | Hk].
    + destruct (decide (k = "__proto__")) as [Hp | Hp].
      * right. split; [now left |]. intros env. rewrite Hstep.
        unfold set_property. apply string_eqb_true in Hp. now rewrite Hp.
      * left. exists v0. split; [exact Ha |]. split; [exact Hp |].
        intros env. rewrite Hstep. unfold set_property.
        apply string_eqb_false in Hp. rewrite Hp. apply lookup_insert_eq.
    + right. split.
      * right. intros v Ha'.
        destruct (assigns_functional line k0 v0 k v Ha Ha') as [E _].
        now apply Hk.
      * intros env. rewrite Hstep. unfold set_property.
        destruct (String.eqb k0 "__proto__"); [reflexivity |].
        now apply lookup_insert_ne.
  - right. split; [right; intros v; apply Hno |].
    intros env. now rewrite Hstep.
Qed.

Lemma env_step_blank (env : gmap string string) (line : string) :
  trim line = "" -> env_step env line = env.
Proof.
  intros H. apply trim_blank, blank_no_equals in H.
  unfold env_step, indexOf_char. now rewrite indexOf_char_from_absent.
Qed.

Lemma foldl_env_step_filter (lines : list string) :
  forall env : gmap string string,
    foldl env_step env (filter (fun l => trim l <> "") lines) =
    foldl env_step env lines.
Proof.
  induction lines as [| l lines IH]; intros env; [reflexivity |].
  rewrite filter_cons. destruct (decide (trim l <> "")) as [Hl | Hl].
  - cbn [foldl]. apply IH.
  - cbn [foldl]. rewrite IH. f_equal. symmetry. apply env_step_blank.
    destruct (decide (trim l = "")); [assumption | contradiction].
Qed.

Lemma last_assignment_nil (k v : string) : ~ last_assignment [] k v.
Proof. intros (before & after & line & E & _). now destruct before. Qed.

Lemma last_assignment_cons (l : string) (ls : list string) (k v : string) :
  last_assignment (l :: ls) k v <->
  last_assignment ls k v \/
  (assigns l k v /\ forall l' v', l' ∈ ls -> ~ assigns l' k v').
Proof.
  split.
  - intros (before & after & line & E & Ha & Hafter).
    destruct before as [| b before]; cbn in E; injection E as -> ->.
    + right. now split.
    + left. now exists before, after, line.
  - intros [(before & after & line & -> & Ha & Hafter) | [Ha Hafter]].
    + now exists (l :: before), after, line.
    + now exists [], ls, l.
Qed.

(** The binding of [k] after the loop: the last assignment among the
    lines unless [k] is "__proto__", or the binding before the loop
    when no line sets [k]. *)
Lemma foldl_env_step_lookup (lines : list string) :
  forall (env : gmap string string) (k v : string),
    foldl env_step env lines !! k = Some v <->
    (k <> "__proto__" /\ last_assignment lines k v) \/
    (env !! k = Some v /\
     (k = "__proto__" \/ forall l v', l ∈ lines -> ~ assigns l k v')).
Proof.
  induction lines as [| l ls IH]; intros env k v.
  - cbn. split.
    + intros H. right. split; [exact H |]. right. intros l v' Hl. inversion Hl.
    + intros [[_ H] | [H _]]; [now apply last_assignment_nil in H | exact H].
  - cbn [foldl]. rewrite IH, last_assignment_cons.
    destruct (env_step_key l k) as [(v0 & Ha & Hk & Hstep) | [Hor Hstep]];
      rewrite Hstep.
    + split.
      * intros [[_ H] | [H Hls]]; [left; split; [exact Hk | now left] |].
        injection H as <-. destruct Hls as [Hp | Hls]; [contradiction |].
        left. split; [exact Hk |]. right. now split.
      * intros [[_ [H | [Ha' Hls]]] | [_ [Hp | Hls]]].
        -- left. now split.
        -- right. destruct (assigns_functional l k v0 k v Ha Ha') as [_ ->].
           split; [reflexivity | now right].
        -- contradiction.
        -- exfalso. apply (Hls l v0); [apply list_elem_of_here | exact Ha].
    + split.
      * intros [[Hk H] | [H Hls]]; [left; split; [exact Hk | now left] |].
        right. split; [exact H |].
        destruct Hls as [Hp | Hls]; [now left |].
        destruct Hor as [Hp | Hno]; [now left |].
        right. intros l' v' Hl' Ha'.
        apply elem_of_cons in Hl' as [Heq | Hl'].
        -- subst l'. now apply (Hno v').
        -- now apply (Hls l' v').
      * intros [[Hk [H | [Ha' _]]] | [H Hls]].
        -- left. now split.
        -- exfalso. destruct Hor as [Hp | Hno]; [contradiction | now apply Hno in Ha'].
        -- right. split; [exact H |].
           destruct Hls as [Hp | Hls]; [now left |].
           right. intros l' v' Hl'. apply Hls. now apply list_elem_of_further.
Qed.

Lemma parse_env_lookup (text k v : string) :
  parse_env text !! k = Some v <->
  k <> "__proto__" /\ last_assignment (split_char "010" text) k v.
Proof.
  unfold parse_env, envLines. rewrite foldl_env_step_filter, foldl_env_step_lookup.
  split; [| now left]. intros [H | [H _]]; [exact H |].
  rewrite lookup_empty in H. discriminate H.
Qed.

(** A line that assigns to a key other than "__proto__" leaves that
    key bound at the end of the loop. *)
Lemma foldl_env_step_bound (lines : list string) :
  forall (env : gmap string string) (k : string),
    (is_Some (env !! k) \/
     (k <> "__proto__" /\ exists l v, l ∈ lines /\ assigns l k v)) ->
    is_Some (foldl env_step env lines !! k).
Proof.
  induction lines as [| l ls IH]; intros env k H.
  - destruct H as [H | (_ & l & v & Hl & _)]; [exact H | inversion Hl].
  - cbn [foldl]. apply IH.
    destruct (env_step_key l k) as [(v0 & Ha & Hk & Hstep) | [Hor Hstep]];
      rewrite Hstep.
    + left. now eexists.
    + destruct H as [H | (Hk & l' & v & Hl' & Ha')]; [now left |].
      apply elem_of_cons in Hl' as [Heq | Hl'].
      * subst l'. exfalso.
        destruct Hor as [Hp | Hno]; [contradiction | now apply Hno in Ha'].
      * right. split; [exact Hk |]. now exists l', v.
Qed.

Lemma parse_env_empty (text : string) :
  parse_env text = ∅ <->
  forall l k v : string,
    l ∈ split_char "010" text -> assigns l k v -> k = "__proto__".
Proof.
  split.
  - intros He l k v Hl Ha.
    destruct (decide (k = "__proto__")) as [Hp | Hp]; [exact Hp |]. exfalso.
    assert (Hb : is_Some (parse_env text !! k)).
    { unfold parse_env, envLines. rewrite foldl_env_step_filter.
      apply foldl_env_step_bound. right. split; [exact Hp |]. now exists l, v. }
    rewrite He, lookup_empty in Hb. now destruct Hb.
  - intros Hno. apply map_eq. intros k. rewrite lookup_empty.
    destruct (parse_env text !! k) as [v |] eqn:E; [| reflexivity].
    apply parse_env_lookup in E as (Hk & before & after & line & Hs & Ha & _).
    exfalso. apply Hk, (Hno line k v); [| exact Ha].
    rewrite Hs. apply elem_of_app. right. apply list_elem_of_here.
Qed.

(** ** Saving a server configuration *)

Lemma or_else_some (s b : string) : s <> "" -> or_else (Some s) b = s.
Proof. intros H. cbn. apply string_eqb_false in H. now rewrite H. Qed.

Lemma or_else_not_empty (a : option string) (b : string) :
  b <> "" -> or_else a b <> "".
Proof.
  intros Hb. destruct a as [s |]; [| exact Hb]. cbn.
  destruct (String.eqb s "") eqn:E; [exact Hb | now apply string_eqb_false].
Qed.

Lemma size_parse_env (text : string) :
  (0 <? size (parse_env text))%nat = false <-> parse_env text = ∅.
Proof.
  rewrite Nat.ltb_ge, <- map_size_empty_iff. lia.
Qed.

(** What [save] does on every input.  It always returns.  It rejects,
    with a notice and with the modal and the settings as they were,
    exactly when the trimmed name or the trimmed command is empty.
    Otherwise it closes the modal and hands to [onSave] a configuration
    with the trimmed name and command, the words of the argument field
    as arguments, an environment that binds each key other than
    "__proto__" to the value of the last line KEY=value for it and
    never binds "__proto__" (absent when no line assigns to another
    key), the enabled flag of the edited server or true for a new one,
    and a non-empty identifier: that of the edited server when it is
    not empty, else the fresh identifier "mcp-" followed by the time
    stamp. *)
Lemma save_rejects_or_builds_configuration :
  forall (now : N) (m : McpServerModal) (st : Settings),
    let r := save now m st in
    let lines := split_char "010" (envInput m) in
    (sr_saved r = None <->
       trim (nameInput m) = "" \/ trim (commandInput m) = "") /\
    (sr_saved r = None ->
       sr_modal r = m /\ sr_settings r = st /\ is_Some (sr_notice r)) /\
    (forall cfg : McpServerConfig,
       sr_saved r = Some cfg ->
       sr_settings r = onSave m cfg st /\
       sr_modal r = close m /\ isOpen (sr_modal r) = false /\
       sr_notice r = None /\
       mcp_name cfg = trim (nameInput m) /\ mcp_name cfg <> "" /\
       mcp_command cfg = trim (commandInput m) /\ mcp_command cfg <> "" /\
       mcp_args cfg = words (argsInput m) /\
       mcp_id cfg <> "" /\
       (forall k v : string,
          mcp_env cfg ≫= (fun env => env !! k) = Some v <->
          k <> "__proto__" /\ last_assignment lines k v) /\
       (mcp_env cfg = None <->
          forall l k v : string, l ∈ lines -> assigns l k v -> k = "__proto__") /\
       (server m = None ->
          mcp_enabled cfg = true /\ mcp_id cfg = "mcp-" +:+ pretty now) /\
       (forall s : McpServerConfig,
          server m = Some s ->
          mcp_enabled cfg = mcp_enabled s /\
          (mcp_id s <> "" -> mcp_id cfg = mcp_id s) /\
          (mcp_id s = "" -> mcp_id cfg = "mcp-" +:+ pretty now))).
Proof.
  intros now m st r lines. subst r lines. unfold save.
  destruct (String.eqb (trim (nameInput m)) "") eqn:En.
  { apply string_eqb_true in En. cbn.
    split; [split; [now left | reflexivity] |].
    split; [intros _; repeat split; now eexists | discriminate]. }
  destruct (String.eqb (trim (commandInput m)) "") eqn:Ec.
  { apply string_eqb_true in Ec. cbn.
    split; [split; [now right | reflexivity] |].
    split; [intros _; repeat split; now eexists | discriminate]. }
  apply string_eqb_false in En, Ec.
  cbn [sr_saved sr_modal sr_settings sr_notice].
  split; [split; [discriminate | intros [H | H]; contradiction] |].
  split; [discriminate |].
  intros cfg Hcfg. injection Hcfg as <-.
  cbn [mcp_name mcp_command mcp_args mcp_env mcp_enabled mcp_id].
  split; [reflexivity |]. split; [reflexivity |]. split; [reflexivity |].
  split; [reflexivity |]. split; [reflexivity |]. split; [exact En |].
  split; [reflexivity |]. split; [exact Ec |].
  split; [apply split_trim_words |].
  split; [apply or_else_not_empty; rewrite !append_cons; discriminate |].
  split; [| split; [| split]].
  - intros k v. rewrite <- parse_env_lookup.
    destruct (0 <? size (parse_env (envInput m)))%nat eqn:Es; [reflexivity |].
    apply size_parse_env in Es. rewrite Es, lookup_empty. cbn. easy.
  - rewrite <- parse_env_empty, <- size_parse_env.
    now destruct (0 <? size (parse_env (envInput m)))%nat.
  - intros Hs. rewrite Hs. now split.
  - intros s Hs. rewrite Hs. split; [reflexivity |]. split.
    + intros Hid. cbn [fmap option_fmap option_map]. now apply or_else_some.
    + intros Hid. cbn. now rewrite Hid.
Qed.

(** C6: the environment loses the key "__proto__".  The "Add MCP
    Server" form is saved with the two lines [A=1] and [__proto__=x] in
    the environment textarea.  Both lines have the form KEY=value with
    a non-empty key, and each is the last line for its key; the
    configuration handed to [onSave] has an environment that binds [A]
    to [1] and nothing else: the key "__proto__" is not in it. *)
Theorem save_loses_the_key_proto :
  last_assignment (split_char "010" (envInput modal_with_proto_line)) "A" "1" /\
  last_assignment (split_char "010" (envInput modal_with_proto_line))
                  "__proto__" "x" /\
  (forall (now : N) (st : Settings),
     exists cfg : McpServerConfig,
       sr_saved (save now modal_with_proto_line st) = Some cfg /\
       mcp_env cfg = Some {[ "A" := "1" ]} /\
       mcp_env cfg ≫= (fun env => env !! "__proto__") = None).
Proof.
  split; [| split].
  - exists [], ["__proto__=x"], "A=1". split; [reflexivity |]. split.
    + exists "A", "1". now repeat split.
    + intros l v Hl (pre & post & -> & Hp & E & _).
      apply list_elem_of_singleton in Hl.
      destruct (first_occurrence_unique "=" pre "__proto__" post "x" Hp eq_refl Hl)
        as [-> _].
      discriminate E.
  - exists ["A=1"], [], "__proto__=x". split; [reflexivity |]. split.
    + exists "__proto__", "x". now repeat split.
    + intros l v Hl. inversion Hl.
  - intros now st. eexists. split; [reflexivity |].
    cbn [mcp_env]. assert (E : parse_env (envInput modal_with_proto_line)
                               = {[ "A" := "1" ]}).
    { apply map_eq. intros k.
      destruct (decide (k = "A")) as [-> | Hk]; [reflexivity |].
      rewrite lookup_singleton_ne by congruence.
      destruct (parse_env _ !! k) as [v |] eqn:Ev; [| reflexivity].
      exfalso. apply parse_env_lookup in Ev as (Hp & before & after & line & Hs & Ha & _).
      assert (Hl : line ∈ ["A=1"; "__proto__=x"])
        by (change (line ∈ split_char "010" (envInput modal_with_proto_line));
            rewrite Hs; apply elem_of_app; right; apply list_elem_of_here).
      rewrite !elem_of_cons, elem_of_nil in Hl.
      destruct Hl as [-> | [-> | []]].
      - assert (Ha0 : assigns "A=1" "A" "1") by (exists "A", "1"; now repeat split).
        destruct (assigns_functional _ _ _ _ _ Ha Ha0) as [-> _]. now apply Hk.
      - assert (Ha0 : assigns "__proto__=x" "__proto__" "x")
          by (exists "__proto__", "x"; now repeat split).
        destruct (assigns_functional _ _ _ _ _ Ha Ha0) as [-> _]. now apply Hp. }
    rewrite E. split; reflexivity.
Qed.

(** * Further properties of the sources *)

(** ** The console logger *)

Lemma ConsoleLogger_run_calls (calls : list LogCall) :
  forall lg : ConsoleLogger.t,
    ConsoleLogger.console (ConsoleLogger.run lg (log_op <$> calls)) =
      (ConsoleLogger.console lg ++
       omap expected_line
          (filter (fun c => (indexOf ConsoleLogger.levels (ConsoleLogger.currentLevel lg)
                             <= indexOf ConsoleLogger.levels (lc_severity c))%Z)
                  calls))%list /\
    ConsoleLogger.currentLevel (ConsoleLogger.run lg (log_op <$> calls)) =
      ConsoleLogger.currentLevel lg.
Proof.
  induction calls as [| c calls IH]; intros lg.
  - cbn. now rewrite app_nil_r.
  - unfold ConsoleLogger.run in *. cbn [fmap list_fmap foldl ConsoleLogger.step log_op].
    rewrite ConsoleLogger_call_unfold, ConsoleLogger_formatMessage_line, filter_cons.
    unfold ConsoleLogger.shouldLog.
    destruct (Z.leb_spec (indexOf ConsoleLogger.levels (ConsoleLogger.currentLevel lg))
                         (indexOf ConsoleLogger.levels (lc_severity c))) as [Hle | Hlt].
    + destruct (decide _) as [_ | Hn]; [| contradiction].
      cbn [omap list_omap]. unfold expected_line at 1.
      destruct (payload_text (lc_data c)) as [suffix |];
        cbn [fmap option_fmap option_map mbind option_bind ConsoleLogger.emit
             ConsoleLogger.after].
      * destruct (IH (ConsoleLogger.write lg (lc_severity c)
                        (console_line (lc_timestamp c) (lc_severity c)
                           (lc_component c) (lc_message c) suffix)))
          as [Hc Hl].
        split; [| exact Hl]. rewrite Hc. cbn [ConsoleLogger.write ConsoleLogger.console
          ConsoleLogger.currentLevel].
        now rewrite <- app_assoc.
      * apply IH.
    + destruct (decide _) as [Hn | _]; [lia |]. apply IH.
Qed.

(** X1: as long as the level is not changed, the console receives
    exactly the calls whose severity is at or above the current level
    and whose payload can be serialised: one line each, reading
    "[time] [LEVEL] [component] message" with a blank and the JSON text
    of the payload behind it when there is one, in the order of the
    calls, behind what was written before.  Calls below the level and
    calls that throw on their payload leave no line.  The level stays
    what it was. *)
Theorem console_receives_calls_at_or_above_level :
  forall (lg : ConsoleLogger.t) (calls : list LogCall),
    ConsoleLogger.console (ConsoleLogger.run lg (log_op <$> calls)) =
      (ConsoleLogger.console lg ++
       omap expected_line
          (filter (fun c => (indexOf ConsoleLogger.levels (ConsoleLogger.getLevel lg)
                             <= indexOf ConsoleLogger.levels (lc_severity c))%Z)
                  calls))%list /\
    ConsoleLogger.getLevel (ConsoleLogger.run lg (log_op <$> calls)) =
      ConsoleLogger.getLevel lg.
Proof. intros lg calls. apply ConsoleLogger_run_calls. Qed.

Lemma ConsoleLogger_step_prefix (lg : ConsoleLogger.t) (o : ConsoleLogger.op) :
  exists more : list (LogLevel * string),
    ConsoleLogger.console (ConsoleLogger.step lg o) =
      (ConsoleLogger.console lg ++ more)%list /\ length more <= 1.
Proof.
  destruct o as [s ts c m d | l]; cbn [ConsoleLogger.step].
  - rewrite ConsoleLogger_call_unfold.
    destruct (ConsoleLogger.shouldLog lg s);
      [destruct (ConsoleLogger.formatMessage ts s c m d) |].
    + eexists. split; [reflexivity | cbn; lia].
    + exists []. split; [now rewrite app_nil_r | cbn; lia].
    + exists []. split; [now rewrite app_nil_r | cbn; lia].
  - exists []. split; [now rewrite app_nil_r | cbn; lia].
Qed.

(** X2: the console is only appended to: whatever calls are made,
    changes of level and calls that throw included, the lines written
    before stay in place at its front, and at most one line per call is
    added.  The level never filters a call of [error]: whatever the
    level, the call writes its line "[time] [ERROR] [component]
    message" with the payload behind it, or, when the payload cannot be
    serialised, throws and leaves the logger as it was. *)
Theorem console_is_append_only_and_errors_are_never_filtered :
  (forall (lg : ConsoleLogger.t) (ops : list ConsoleLogger.op),
     exists more : list (LogLevel * string),
       ConsoleLogger.console (ConsoleLogger.run lg ops) =
         (ConsoleLogger.console lg ++ more)%list /\
       length more <= length ops) /\
  (forall (lg : ConsoleLogger.t) (ops : list ConsoleLogger.op)
          (ts c m : string) (d : ConsoleLogger.Payload),
     let before := ConsoleLogger.run lg ops in
     let r := ConsoleLogger.error before ts c m d in
     match payload_text d with
     | Some suffix =>
         ConsoleLogger.thrown r = false /\
         ConsoleLogger.console (ConsoleLogger.after r) =
           (ConsoleLogger.console before ++
              [(LError, "[" +:+ ts +:+ "] [ERROR] [" +:+ c +:+ "] " +:+ m
                          +:+ suffix)])%list
     | None =>
         d = ConsoleLogger.Circular /\
         r = {| ConsoleLogger.after := before; ConsoleLogger.thrown := true |}
     end).
Proof.
  split.
  - intros lg ops. revert lg.
    induction ops as [| o ops IH]; intros lg.
    + exists []. split; [now rewrite app_nil_r | reflexivity].
    + unfold ConsoleLogger.run in *. cbn [foldl].
      destruct (ConsoleLogger_step_prefix lg o) as (m1 & H1 & L1).
      destruct (IH (ConsoleLogger.step lg o)) as (m2 & H2 & L2).
      exists (m1 ++ m2)%list. split.
      * now rewrite H2, H1, app_assoc.
      * rewrite length_app. cbn [length]. lia.
  - intros lg ops ts c m d before r. subst r.
    unfold ConsoleLogger.error, ConsoleLogger.shouldLog.
    replace (_ <=? _)%Z with true.
    + rewrite ConsoleLogger_formatMessage_line.
      destruct d; cbn; auto.
    + symmetry. apply Z.leb_le. rewrite !ConsoleLogger_index.
      destruct (ConsoleLogger.currentLevel _); lia.
Qed.

(** ** Keys and the mouse on the popup *)

Lemma show_suggestions (cmds : string -> list Suggestion) (files : list TFile)
    (p : AutocompletePopup) (type : SuggestionType) (query : string) :
  suggestions (show cmds files p type query) = getSuggestions cmds files type query.
Proof.
  unfold show. cbn [suggestions].
  now destruct (length (getSuggestions cmds files type query) =? 0)%nat.
Qed.

Lemma show_containerEl (cmds : string -> list Suggestion) (files : list TFile)
    (p : AutocompletePopup) (type : SuggestionType) (query : string) :
  containerEl (show cmds files p type query) =
    match getSuggestions cmds files type query with
    | [] => None
    | sgs => Some (render_items 0 sgs)
    end.
Proof.
  unfold show. cbn [suggestions].
  now destruct (getSuggestions cmds files type query).
Qed.

(** X3: a key pressed after [show] is never handled.  [show] leaves the
    flag that [handleKeydown] tests cleared, so for every key, the
    arrows, Enter, Tab and Escape included, [handleKeydown] returns
    false without calling [preventDefault], without selecting anything
    and without changing the popup, also when suggestions are on
    display. *)
Theorem keys_after_show_are_not_handled :
  forall (nextIndex prevIndex : nat -> nat -> nat)
         (cmds : string -> list Suggestion) (files : list TFile)
         (p : AutocompletePopup) (type : SuggestionType) (query key : string),
    handleKeydown nextIndex prevIndex (show cmds files p type query) key =
      {| kr_popup := show cmds files p type query;
         kr_selected := []; kr_prevented := false; kr_handled := false |}.
Proof.
  intros nextIndex prevIndex cmds files p type query key.
  unfold handleKeydown.
  pose proof (show_leaves_visible_flag_cleared cmds files p type query) as Hv.
  unfold isVisible in Hv. now rewrite Hv.
Qed.

(** X4: after [show], the list on display has one item per suggestion
    found, and a click on item [i] hands exactly the [i]-th suggestion
    to [onSelect] and takes the popup away. *)
Theorem click_selects_the_item_clicked :
  forall (cmds : string -> list Suggestion) (files : list TFile)
         (p : AutocompletePopup) (type : SuggestionType) (query : string),
    let shown := show cmds files p type query in
    (forall items : list ItemEl,
       containerEl shown = Some items ->
       length items = length (getSuggestions cmds files type query)) /\
    (forall (i : nat) (sg : Suggestion),
       getSuggestions cmds files type query !! i = Some sg ->
       snd (click_item i shown) = [sg] /\
       containerEl (fst (click_item i shown)) = None /\
       isVisible (fst (click_item i shown)) = false /\
       suggestions (fst (click_item i shown)) =
         getSuggestions cmds files type query).
Proof.
  intros cmds files p type query shown. subst shown. split.
  - intros items. rewrite show_containerEl.
    destruct (getSuggestions cmds files type query) as [| sg sgs]; [discriminate |].
    intros H. injection H as <-. unfold render_items. apply length_imap.
  - intros i sg Hi. unfold click_item, selectCurrent, set_selectedIndex.
    cbn [fst snd suggestions selectedIndex hide containerEl visible isVisible].
    rewrite show_suggestions, Hi. now repeat split.
Qed.

Lemma imap_selected_lookup (sel : nat) (items : list ItemEl) (j : nat) (it : ItemEl) :
  imap (fun i it0 =>
          {| it_selected := Nat.eqb i sel; it_label := it_label it0;
             it_description := it_description it0; it_icon := it_icon it0 |})
       items !! j = Some it ->
  exists it0, items !! j = Some it0 /\ it_selected it = Nat.eqb j sel /\
              it_label it = it_label it0 /\
              it_description it = it_description it0 /\ it_icon it = it_icon it0.
Proof.
  rewrite list_lookup_imap. destruct (items !! j) as [it0 |]; [| discriminate].
  cbn. intros H. injection H as <-. exists it0. now repeat split.
Qed.

(** X5: when the mouse enters item [i] of a popup on display, item [i]
    and no other item carries the class "selected"; the items keep
    their number, labels, descriptions and icons. *)
Theorem mouseenter_highlights_one_item :
  forall (p : AutocompletePopup) (items : list ItemEl) (i : nat),
    containerEl p = Some items ->
    exists items' : list ItemEl,
      containerEl (mouseenter_item i p) = Some items' /\
      selectedIndex (mouseenter_item i p) = i /\
      length items' = length items /\
      forall (j : nat) (it : ItemEl),
        items' !! j = Some it ->
        (it_selected it = true <-> j = i) /\
        exists it0, items !! j = Some it0 /\ it_label it = it_label it0 /\
                    it_description it = it_description it0 /\
                    it_icon it = it_icon it0.
Proof.
  intros p items i Hc. unfold mouseenter_item, updateSelection, set_selectedIndex.
  cbn [containerEl selectedIndex]. rewrite Hc. eexists. split; [reflexivity |].
  cbn [selectedIndex]. split; [reflexivity |]. split; [apply length_imap |].
  intros j it Hj. apply imap_selected_lookup in Hj as (it0 & H0 & Hs & Hl & Hd & Hi).
  split.
  - rewrite Hs. apply Nat.eqb_eq.
  - now exists it0.
Qed.

(** A popup whose list holds two items. *)
Lemma mouseenter_highlights_one_item_witness :
  exists items' : list ItemEl,
    containerEl
      (mouseenter_item 1
         {| containerEl := Some (render_items 0
              [file_suggestion notes_file; file_suggestion notes_file]);
            suggestions := [file_suggestion notes_file; file_suggestion notes_file];
            selectedIndex := 0; visible := false |}) = Some items' /\
    (it_selected <$> items') = [false; true].
Proof.
  destruct (mouseenter_highlights_one_item
              {| containerEl := Some (render_items 0
                   [file_suggestion notes_file; file_suggestion notes_file]);
                 suggestions := [file_suggestion notes_file; file_suggestion notes_file];
                 selectedIndex := 0; visible := false |}
              (render_items 0 [file_suggestion notes_file; file_suggestion notes_file])
              1 eq_refl) as (items' & H & _).
  exists items'. split; [exact H |].
  cbn in H. injection H as <-. reflexivity.
Defined.

(** ** More on the file suggestions *)

Lemma includes_empty (s : string) : includes s "" = true.
Proof. now destruct s. Qed.

Lemma filter_all_true {A} (f : A -> bool) (l : list A) :
  (forall x, f x = true) -> List.filter f l = l.
Proof.
  intros H. induction l as [| a l IH]; [reflexivity |]. cbn.
  now rewrite H, IH.
Qed.

(** X6: the empty query suggests the first ten markdown files of the
    vault, in the order of the vault; in general the suggestions are
    the first ten matching files in that order, so every matching file
    is suggested when at most ten match. *)
Theorem file_suggestions_follow_vault_order :
  (forall files : list TFile,
     getFileSuggestions files "" = file_suggestion <$> take 10 files) /\
  (forall (files : list TFile) (query : string),
     getFileSuggestions files query =
       file_suggestion <$> take 10 (matching_files files query) /\
     (matching_files files query `sublist_of` files) /\
     (length (matching_files files query) <= 10 ->
      forall f : TFile,
        f ∈ files -> file_matches (toLowerCase query) f = true ->
        file_suggestion f ∈ getFileSuggestions files query)).
Proof.
  split.
  - intros files. unfold getFileSuggestions. cbn [toLowerCase].
    rewrite filter_all_true; [reflexivity |].
    intros f. unfold file_matches. now rewrite includes_empty.
  - intros files query. split; [reflexivity |]. split.
    + unfold matching_files. induction files as [| f files IH]; [constructor |].
      cbn. destruct (file_matches (toLowerCase query) f).
      * now apply sublist_skip.
      * now apply sublist_cons.
    + intros Hlen f Hin Hm. unfold getFileSuggestions.
      fold (matching_files files query).
      rewrite firstn_all2 by exact Hlen.
      apply list_elem_of_fmap. exists f. split; [reflexivity |].
      unfold matching_files. apply list_elem_of_In, filter_In.
      split; [now apply list_elem_of_In | exact Hm].
Qed.

(** ** Expanding and updating a tool call display *)

Lemma display_step_toolCall (d : ToolCallDisplay) (o : display_op) :
  toolCall (display_step d o) =
    match o with
    | DoUpdate u => Object_assign (toolCall d) u
    | _ => toolCall d
    end.
Proof. now destruct o. Qed.

(** X7: the tool call a display shows is changed by [update] alone:
    after any sequence of updates, toggles, expansions and collapses it
    is what the updates of the sequence make of it, and an update never
    changes whether the display is expanded. *)
Theorem display_tool_call_depends_on_updates_only :
  (forall (ops : list display_op) (d : ToolCallDisplay),
     toolCall (foldl display_step d ops) =
     toolCall (update_all d (updates_of ops))) /\
  (forall (d : ToolCallDisplay) (u : PartialToolCall),
     isExpanded (update d u) = isExpanded d) /\
  (forall d : ToolCallDisplay, isExpanded (toggle (toggle d)) = isExpanded d).
Proof.
  split; [| split; [reflexivity | intros d; cbn; apply negb_involutive]].
  assert (Hgen : forall (ops : list display_op) (d d' : ToolCallDisplay),
             toolCall d = toolCall d' ->
             toolCall (foldl display_step d ops) =
             toolCall (update_all d' (updates_of ops))).
  { induction ops as [| o ops IH]; intros d d' H; [exact H |].
    cbn [foldl]. unfold update_all in *.
    destruct o as [u | | |]; cbn [updates_of omap list_omap foldl];
      apply IH; cbn; now rewrite ?H. }
  intros ops d. now apply Hgen.
Qed.

(** X8: the header agrees with itself: after any operation on a display
    the progress indicator of a subagent is on show only while the
    subagent is starting, running or thinking, and then the status text
    is that state followed by "..." and the status class is that
    state. *)
Theorem progress_indicator_agrees_with_status :
  forall (d : ToolCallDisplay) (o : display_op),
    exists h : ToolCallHeader,
      header (display_step d o) = Some h /\
      (h_progress h = true ->
       exists ss : SubagentStatus,
         tc_subagentStatus (toolCall (display_step d o)) = Some ss /\
         tc_isSubagent (toolCall (display_step d o)) = Some true /\
         ss ∈ [SubStarting; SubRunning; SubThinking] /\
         h_statusText h = SubagentStatus_lit ss +:+ "..." /\
         h_statusClass h = SubagentStatus_lit ss).
Proof.
  intros d o.
  assert (Hr : forall d0 : ToolCallDisplay,
             exists h, header (render d0) = Some h /\
               (h_progress h = true ->
                exists ss, tc_subagentStatus (toolCall (render d0)) = Some ss /\
                  tc_isSubagent (toolCall (render d0)) = Some true /\
                  ss ∈ [SubStarting; SubRunning; SubThinking] /\
                  h_statusText h = SubagentStatus_lit ss +:+ "..." /\
                  h_statusClass h = SubagentStatus_lit ss)).
  { intros d0. eexists. split; [reflexivity |].
    cbn [h_progress h_statusText h_statusClass render toolCall].
    destruct (tc_isSubagent (toolCall d0)) as [[|] |]; cbn [flag default andb];
      try discriminate.
    destruct (tc_subagentStatus (toolCall d0)) as [ss |]; [| discriminate].
    intros Hrun. exists ss. split; [reflexivity |]. split; [reflexivity |].
    rewrite !elem_of_cons.
    destruct ss; try discriminate Hrun; cbn; auto 10. }
  destruct o; apply Hr.
Qed.

(** ** Strings, continued *)

Lemma string_length_append (a b : string) :
  String.length (a +:+ b) = String.length a + String.length b.
Proof.
  induction a as [| x a IH]; [reflexivity |]. rewrite append_cons. cbn. now rewrite IH.
Qed.

Lemma toLowerCase_append (a b : string) :
  toLowerCase (a +:+ b) = toLowerCase a +:+ toLowerCase b.
Proof.
  induction a as [| x a IH]; [reflexivity |].
  rewrite append_cons. cbn [toLowerCase]. rewrite append_cons. now rewrite IH.
Qed.

Lemma toLowerCase_length (s : string) :
  String.length (toLowerCase s) = String.length s.
Proof. induction s as [| c s IH]; [reflexivity |]. cbn. now rewrite IH. Qed.

Lemma endsWith_append (a b : string) : endsWith (a +:+ b) b = true.
Proof.
  unfold endsWith. rewrite string_length_append.
  replace (String.length a + String.length b - String.length b)
    with (String.length a) by lia.
  rewrite slice_from_append, String.eqb_refl.
  apply andb_true_iff. split; [apply Nat.leb_le; lia | reflexivity].
Qed.

Lemma slice_to_length (n : nat) (s : string) :
  String.length (slice_to n s) = Nat.min n (String.length s).
Proof.
  revert s. induction n as [| n IH]; intros s; [reflexivity |].
  destruct s as [| c s]; [reflexivity |]. cbn. now rewrite IH.
Qed.

(** ** Vault paths *)

Lemma extensions_length (ext : string) :
  ext ∈ extensions -> 3 <= String.length ext.
Proof.
  unfold extensions. rewrite !elem_of_cons, elem_of_nil.
  intros H. repeat (destruct H as [-> | H]; [cbn; lia |]). destruct H.
Qed.

(** X9: what [isVaultPath] never accepts: a text that contains "://", a
    text that begins with "http" (the name of a note such as
    "http-notes.md" included), a text of fewer than three characters,
    and a text with a space in it that does not end in one of the
    known extensions. *)
Theorem isVaultPath_never_accepts :
  (forall text : string, includes text "://" = true -> isVaultPath text = false) /\
  (forall rest : string, isVaultPath ("http" +:+ rest) = false) /\
  (forall text : string, String.length text < 3 -> isVaultPath text = false) /\
  (forall text : string,
     includes text " " = true ->
     (forall ext : string, ext ∈ extensions ->
        endsWith (toLowerCase text) ext = false) ->
     isVaultPath text = false).
Proof.
  repeat apply conj.
  - intros text H. unfold isVaultPath. now rewrite H.
  - intros rest. unfold isVaultPath, startsWith.
    rewrite (prefix_append "http" rest), orb_true_r. reflexivity.
  - intros text H. unfold isVaultPath.
    destruct (includes text "://" || startsWith text "http"); [reflexivity |].
    apply Nat.ltb_lt in H. rewrite H, orb_true_r. reflexivity.
  - intros text Hsp Hext. unfold isVaultPath.
    destruct (includes text "://" || startsWith text "http"); [reflexivity |].
    destruct (String.eqb text "" || (String.length text <? 3)%nat); [reflexivity |].
    replace (existsb (fun ext => endsWith (toLowerCase text) ext) extensions)
      with false.
    + rewrite Hsp. cbn [negb]. now rewrite andb_false_r.
    + symmetry. apply not_true_is_false. intros He.
      apply existsb_exists in He as (ext & Hin & He).
      apply list_elem_of_In in Hin. rewrite (Hext ext Hin) in He. discriminate He.
Qed.

(** X10: a text that ends in a known extension, written in any mix of
    upper and lower case, is taken as a vault path, spaces or not, as
    soon as it neither contains "://" nor begins with "http". *)
Theorem isVaultPath_accepts_known_extensions :
  forall stem ext : string,
    toLowerCase ext ∈ extensions ->
    includes (stem +:+ ext) "://" = false ->
    startsWith (stem +:+ ext) "http" = false ->
    isVaultPath (stem +:+ ext) = true.
Proof.
  intros stem ext Hext Hurl Hhttp. unfold isVaultPath.
  rewrite Hurl, Hhttp. cbn [orb].
  assert (Hlen : 3 <= String.length (stem +:+ ext)).
  { rewrite string_length_append, <- (toLowerCase_length ext).
    apply extensions_length in Hext. lia. }
  replace (String.eqb (stem +:+ ext) "") with false
    by (symmetry; apply string_eqb_false; intros E; rewrite E in Hlen; cbn in Hlen; lia).
  replace (String.length (stem +:+ ext) <? 3)%nat with false
    by (symmetry; apply Nat.ltb_ge; exact Hlen).
  cbn [orb].
  replace (existsb (fun e => endsWith (toLowerCase (stem +:+ ext)) e) extensions)
    with true; [reflexivity |].
  symmetry. apply existsb_exists. exists (toLowerCase ext).
  split; [now apply list_elem_of_In |].
  rewrite toLowerCase_append. apply endsWith_append.
Qed.

(** The note "pages/my note.MD". *)
Lemma isVaultPath_accepts_known_extensions_witness :
  isVaultPath "pages/my note.MD" = true.
Proof.
  apply (isVaultPath_accepts_known_extensions "pages/my note" ".MD").
  - apply (bool_decide_unpack _). reflexivity.
  - reflexivity.
  - reflexivity.
Defined.

(** ** The input summary *)

Lemma split_char_acc_last (sep : ascii) (s : string) :
  forall cur : string,
    occurs sep cur = false ->
    exists seg : string,
      last (split_char_acc sep s cur) = Some seg /\ occurs sep seg = false /\
      (cur +:+ s = seg \/ exists dir : string, cur +:+ s = dir +:+ String sep seg).
Proof.
  induction s as [| c s IH]; intros cur Hcur.
  - exists cur. cbn. rewrite append_empty_r. auto.
  - cbn [split_char_acc]. destruct (Ascii.eqb c sep) eqn:E.
    + apply Ascii.eqb_eq in E. subst c.
      destruct (IH "" eq_refl) as (seg & Hl & Hs & Hd).
      exists seg. rewrite last_cons, Hl. split; [reflexivity |].
      split; [exact Hs |]. right. rewrite append_nil in Hd.
      destruct Hd as [-> | (dir & ->)].
      * now exists cur.
      * exists (cur +:+ String sep dir).
        now rewrite append_assoc, append_cons.
    + assert (Hc : occurs sep (cur +:+ String c "") = false).
      { clear IH. induction cur as [| x cur IHc].
        - rewrite append_nil. cbn. now rewrite E.
        - rewrite append_cons. cbn in Hcur |- *.
          apply orb_false_iff in Hcur as [Hx Hcur]. rewrite Hx. now apply IHc. }
      destruct (IH _ Hc) as (seg & Hl & Hs & Hd).
      exists seg. split; [exact Hl |]. split; [exact Hs |].
      now rewrite append_assoc, append_cons, append_nil in Hd.
Qed.

Lemma last_segment_spec (p : string) :
  occurs "/" (last_segment p) = false /\
  (p = last_segment p \/ exists dir : string, p = dir +:+ "/" +:+ last_segment p).
Proof.
  unfold last_segment, split_char.
  destruct (split_char_acc_last "/" p "" eq_refl) as (seg & Hl & Hs & Hd).
  rewrite Hl. rewrite append_nil in Hd.
  assert (Ho : or_else (Some seg) "" = seg) by (cbn; now destruct seg).
  rewrite Ho. split; [exact Hs |].
  destruct Hd as [-> | (dir & ->)]; [now left | right; now exists dir].
Qed.

Lemma get_present (input : gmap string JSValue) (key : string) (v : JSValue) :
  input !! key = Some v -> get input key = v.
Proof. intros H. unfold get. now rewrite H. Qed.

Lemma get_absent (input : gmap string JSValue) (key : string) :
  input !! key = None -> get input key = JUndefined.
Proof. intros H. unfold get. now rewrite H. Qed.

(** X11: for a tool other than "Skill" and "Task" whose input holds a
    non-empty [file_path], the summary is the file name: the part of
    the path behind its last slash, without any slash in it, whatever
    else the input holds. *)
Theorem summary_of_file_path_is_file_name :
  forall (name path : string) (input : gmap string JSValue),
    name <> "Skill" -> name <> "Task" ->
    input !! "file_path" = Some (JString path) -> path <> "" ->
    let summary := getToolInputSummary name input in
    occurs "/" summary = false /\
    (path = summary \/ exists dir : string, path = dir +:+ "/" +:+ summary).
Proof.
  intros name path input Hs Ht Hin Hne summary.
  assert (E : summary = last_segment path).
  { subst summary. unfold getToolInputSummary.
    apply string_eqb_false in Hs, Ht. rewrite Hs, Ht. cbn [andb].
    rewrite (get_present input "file_path" _ Hin). cbn [ToBoolean ToString].
    apply string_eqb_false in Hne. now rewrite Hne. }
  rewrite E. apply last_segment_spec.
Qed.

(** The input of a "Read" call. *)
Lemma summary_of_file_path_is_file_name_witness :
  getToolInputSummary "Read"
    (<["file_path" := JString "/vault/notes/today.md"]>
       (<["limit" := JOther true "20"]> ∅)) = "today.md".
Proof.
  destruct (summary_of_file_path_is_file_name "Read" "/vault/notes/today.md"
              (<["file_path" := JString "/vault/notes/today.md"]>
                 (<["limit" := JOther true "20"]> ∅)))
    as [_ _]; [discriminate | discriminate | reflexivity | discriminate |].
  vm_compute. reflexivity.
Defined.

Lemma ellipsis_length (n : nat) (s : string) :
  n < String.length s -> String.length (slice_to n s +:+ "...") = n + 3.
Proof.
  intros H. rewrite string_length_append, slice_to_length. cbn. lia.
Qed.

(** X12: the summary of a shell command is short: for a tool other than
    "Skill" and "Task" whose input holds a non-empty [command] and no
    [file_path], [path] or [pattern], the summary is the command itself
    when that has at most 30 characters, and else its first 30
    characters followed by "...", 33 characters in all. *)
Theorem summary_of_command_is_cut_at_30 :
  forall (name cmd : string) (input : gmap string JSValue),
    name <> "Skill" -> name <> "Task" ->
    input !! "file_path" = None -> input !! "path" = None ->
    input !! "pattern" = None ->
    input !! "command" = Some (JString cmd) -> cmd <> "" ->
    let summary := getToolInputSummary name input in
    String.length summary <= 33 /\
    (String.length cmd <= 30 -> summary = cmd) /\
    (30 < String.length cmd ->
     summary = slice_to 30 cmd +:+ "..." /\ String.length summary = 33).
Proof.
  intros name cmd input Hs Ht Hf Hp Hpat Hc Hne summary.
  assert (E : summary =
              if (30 <? String.length cmd)%nat then slice_to 30 cmd +:+ "..."
              else cmd).
  { subst summary. unfold getToolInputSummary.
    apply string_eqb_false in Hs, Ht. rewrite Hs, Ht. cbn [andb].
    rewrite (get_absent input "file_path" Hf), (get_absent input "path" Hp),
      (get_absent input "pattern" Hpat), (get_present input "command" _ Hc).
    cbn [ToBoolean ToString]. apply string_eqb_false in Hne. now rewrite Hne. }
  rewrite E.
  destruct (Nat.ltb_spec 30 (String.length cmd)) as [Hlong | Hshort].
  - rewrite (ellipsis_length 30 cmd Hlong).
    split; [lia |]. split; [lia | intros _; now split].
  - split; [lia |]. split; [reflexivity | lia].
Qed.

(** The input of a "Bash" call with a long command. *)
Lemma summary_of_command_is_cut_at_30_witness :
  getToolInputSummary "Bash"
    (<["command" := JString "find . -name '*.md' -newer notes/index.md -print"]> ∅)
  = "find . -name '*.md' -newer not...".
Proof.
  destruct (summary_of_command_is_cut_at_30 "Bash"
              "find . -name '*.md' -newer notes/index.md -print"
              (<["command" :=
                   JString "find . -name '*.md' -newer notes/index.md -print"]> ∅))
    as (_ & _ & Hlong);
    [discriminate | discriminate | reflexivity | reflexivity | reflexivity
    | reflexivity | discriminate |].
  destruct Hlong as [-> _]; [cbn; lia | reflexivity].
Defined.

(** ** Matches in a text node *)

Lemma insert_match_perm (m : PathMatch) (l : list PathMatch) :
  insert_match m l ≡ₚ m :: l.
Proof.
  induction l as [| x l IH]; [reflexivity |]. cbn.
  destruct (pm_index x <=? pm_index m)%nat; [| reflexivity].
  rewrite IH. apply Permutation_swap.
Qed.

Lemma sorted_from_weaken (lo lo' : nat) (l : list PathMatch) :
  lo' <= lo -> sorted_from lo l -> sorted_from lo' l.
Proof. destruct l as [| x l]; [easy |]. cbn. intros H [H1 H2]. split; [lia | exact H2]. Qed.

Lemma insert_match_sorted (m : PathMatch) (l : list PathMatch) :
  forall lo : nat,
    lo <= pm_index m -> sorted_from lo l -> sorted_from lo (insert_match m l).
Proof.
  induction l as [| x l IH]; intros lo Hm Hl; [cbn; auto |].
  cbn in Hl |- *. destruct Hl as [Hx Hl].
  destruct (Nat.leb_spec (pm_index x) (pm_index m)) as [Hle | Hgt]; cbn.
  - split; [exact Hx |]. now apply IH.
  - split; [exact Hm |]. split; [lia | exact Hl].
Qed.

Lemma sort_matches_acc (ms : list PathMatch) :
  forall acc : list PathMatch,
    sorted_from 0 acc ->
    foldl (fun sorted m => insert_match m sorted) acc ms ≡ₚ (acc ++ ms)%list /\
    sorted_from 0 (foldl (fun sorted m => insert_match m sorted) acc ms).
Proof.
  induction ms as [| m ms IH]; intros acc Hacc.
  - cbn. now rewrite app_nil_r.
  - cbn [foldl].
    destruct (IH (insert_match m acc)) as [Hp Hs].
    { apply insert_match_sorted; [lia | exact Hacc]. }
    split; [| exact Hs].
    rewrite Hp, insert_match_perm. cbn [app]. apply Permutation_middle.
Qed.

Lemma removeOverlaps_disjoint (l : list PathMatch) :
  forall e : nat, disjoint_from e (removeOverlaps e l).
Proof.
  induction l as [| x l IH]; intros e; [exact I |]. cbn.
  destruct (Nat.leb_spec e (pm_index x)) as [Hle | Hgt].
  - cbn. split; [exact Hle | apply IH].
  - apply IH.
Qed.

Lemma removeOverlaps_sublist (l : list PathMatch) :
  forall e : nat, removeOverlaps e l `sublist_of` l.
Proof.
  induction l as [| x l IH]; intros e; [constructor |]. cbn.
  destruct (e <=? pm_index x)%nat.
  - apply sublist_skip, IH.
  - apply sublist_cons, IH.
Qed.

(** In a sorted list a match is dropped only when it starts before the
    end of a match that is kept, or before [e]. *)
Lemma removeOverlaps_dropped (l : list PathMatch) :
  forall e lo : nat,
    sorted_from lo l ->
    forall m : PathMatch,
      m ∈ l ->
      m ∈ removeOverlaps e l \/ pm_index m < e \/
      exists k : PathMatch,
        k ∈ removeOverlaps e l /\
        pm_index k <= pm_index m < pm_index k + pm_length k.
Proof.
  induction l as [| x l IH]; intros e lo Hs m Hm; [inversion Hm |].
  cbn in Hs. destruct Hs as [_ Hs]. cbn [removeOverlaps].
  apply elem_of_cons in Hm as [Heq | Hm].
  - subst m. destruct (Nat.leb_spec e (pm_index x)) as [Hle | Hgt].
    + left. apply list_elem_of_here.
    + right. left. exact Hgt.
  - assert (Hxm : pm_index x <= pm_index m).
    { clear IH. revert Hs Hm. generalize (pm_index x). induction l as [| y l IHl];
        intros n Hs Hm; [inversion Hm |].
      cbn in Hs. destruct Hs as [Hy Hs].
      apply elem_of_cons in Hm as [-> | Hm]; [exact Hy |].
      specialize (IHl _ Hs Hm). lia. }
    destruct (Nat.leb_spec e (pm_index x)) as [Hle | Hgt].
    + destruct (IH (pm_index x + pm_length x) _ Hs m Hm) as [H | [H | (k & Hk & Hr)]].
      * left. now apply list_elem_of_further.
      * right. right. exists x. split; [apply list_elem_of_here | lia].
      * right. right. exists k. split; [now apply list_elem_of_further | exact Hr].
    + exact (IH e _ Hs m Hm).
Qed.

(** X13: of the matches found in a text node, sorted by their start,
    the kept ones are pairwise disjoint and in order: each starts at or
    behind the end of the one before.  Nothing is kept that was not
    found, a match is dropped only when it starts inside a kept match,
    and something is kept as soon as anything was found. *)
Theorem kept_matches_are_disjoint_and_maximal :
  forall allMatches : list PathMatch,
    let sorted := sort_matches allMatches in
    let kept := removeOverlaps 0 sorted in
    sorted ≡ₚ allMatches /\
    sorted_from 0 sorted /\
    (kept `sublist_of` sorted) /\
    disjoint_from 0 kept /\
    (forall m : PathMatch,
       m ∈ allMatches ->
       m ∈ kept \/
       exists k : PathMatch,
         k ∈ kept /\ pm_index k <= pm_index m < pm_index k + pm_length k) /\
    (kept = [] <-> allMatches = []).
Proof.
  intros allMatches sorted kept. subst kept sorted. unfold sort_matches.
  destruct (sort_matches_acc allMatches [] I) as [Hp Hs]. cbn [app] in Hp.
  split; [exact Hp |]. split; [exact Hs |].
  split; [apply removeOverlaps_sublist |].
  split; [apply removeOverlaps_disjoint |].
  assert (Hdrop : forall m : PathMatch,
             m ∈ allMatches ->
             m ∈ removeOverlaps 0
                   (foldl (fun sorted m0 => insert_match m0 sorted) [] allMatches) \/
             exists k : PathMatch,
               k ∈ removeOverlaps 0
                     (foldl (fun sorted m0 => insert_match m0 sorted) [] allMatches) /\
               pm_index k <= pm_index m < pm_index k + pm_length k).
  { intros m Hm. rewrite <- Hp in Hm.
    destruct (removeOverlaps_dropped _ 0 0 Hs m Hm) as [H | [H | H]];
      [now left | lia | now right]. }
  split; [exact Hdrop |]. split.
  - intros Hk. destruct allMatches as [| m ms]; [reflexivity |]. exfalso.
    destruct (Hdrop m (list_elem_of_here _ _)) as [H | (k & H & _)];
      rewrite Hk in H; inversion H.
  - intros ->. reflexivity.
Qed.

Lemma slice_to_from (n : nat) (s : string) : slice_to n s +:+ slice_from n s = s.
Proof.
  revert s. induction n as [| n IH]; intros s; [reflexivity |].
  destruct s as [| c s]; [reflexivity |]. cbn [slice_to slice_from].
  rewrite append_cons. now rewrite IH.
Qed.

Lemma slice_from_add (a n : nat) (s : string) :
  slice_from (a + n) s = slice_from n (slice_from a s).
Proof.
  revert s. induction a as [| a IH]; intros s; [reflexivity |].
  destruct s as [| c s]; [now destruct n |]. cbn. apply IH.
Qed.

Lemma slice_from_ge (n : nat) (s : string) :
  String.length s <= n -> slice_from n s = "".
Proof.
  revert s. induction n as [| n IH]; intros s H.
  - destruct s; [reflexivity | cbn in H; lia].
  - destruct s as [| c s]; [reflexivity |]. cbn in H |- *. apply IH. lia.
Qed.

Lemma slice_then_rest (a b : nat) (s : string) :
  a <= b -> slice a b s +:+ slice_from b s = slice_from a s.
Proof.
  intros H. unfold slice. replace b with (a + (b - a)) at 2 by lia.
  rewrite slice_from_add. apply slice_to_from.
Qed.

Lemma slice_empty (a : nat) (s : string) : slice a a s = "".
Proof. unfold slice. now rewrite Nat.sub_diag. Qed.

Lemma fill_fragment_text (text : string) (ms : list PathMatch) :
  forall i : nat,
    disjoint_from i ms ->
    fragment_text (fill_fragment text i ms) = with_display_texts text i ms.
Proof.
  unfold fragment_text.
  induction ms as [| m ms IH]; intros i Hd.
  - cbn [fill_fragment with_display_texts].
    destruct (Nat.ltb_spec i (String.length text)) as [Hlt | Hge].
    + cbn. apply append_empty_r.
    + cbn. symmetry. now apply slice_from_ge.
  - cbn in Hd. destruct Hd as [Hi Hd]. cbn [fill_fragment with_display_texts].
    rewrite fmap_app, foldr_app. cbn [fmap list_fmap foldr vault_link].
    rewrite (IH _ Hd).
    destruct (Nat.ltb_spec i (pm_index m)) as [Hlt | Hge].
    + reflexivity.
    + cbn. replace i with (pm_index m) by lia. now rewrite slice_empty.
Qed.

Lemma with_display_texts_covered (text : string) (ms : list PathMatch) :
  forall i : nat,
    disjoint_from i ms -> Forall (displays_covered_text text) ms ->
    with_display_texts text i ms = slice_from i text.
Proof.
  induction ms as [| m ms IH]; intros i Hd Hall; [reflexivity |].
  cbn in Hd. destruct Hd as [Hi Hd]. inversion Hall as [| ? ? Hm Hms]; subst.
  cbn [with_display_texts]. rewrite (IH _ Hd Hms), Hm.
  rewrite slice_then_rest by lia. now apply slice_then_rest.
Qed.

Lemma fill_fragment_spans (text : string) (ms : list PathMatch) :
  forall i : nat,
    spans_of (fill_fragment text i ms) =
    (fun m => (pm_displayText m,
               if decide (pm_path m = pm_displayText m) then None
               else Some (pm_path m),
               pm_path m)) <$> ms.
Proof.
  induction ms as [| m ms IH]; intros i.
  - cbn [fill_fragment]. destruct (i <? String.length text)%nat; reflexivity.
  - cbn [fill_fragment]. unfold spans_of in *.
    assert (Ht : link_title m =
                 if decide (pm_path m = pm_displayText m) then None
                 else Some (pm_path m)).
    { unfold link_title. destruct (decide _) as [He | Hne].
      - apply string_eqb_true in He. now rewrite He.
      - apply string_eqb_false in Hne. now rewrite Hne. }
    destruct (i <? pm_index m)%nat;
      cbn [app omap list_omap vault_link fmap list_fmap]; now rewrite IH, Ht.
Qed.

(** X14: what a replaced text node shows.  The node is left alone
    exactly when no match was found.  Otherwise the fragment holds one
    span for each kept match, in order, showing the display text of the
    match, opening its path, and titled with the path when that differs
    from the text shown; the text before, between and behind the kept
    matches is carried over as it is, so the fragment shows the text of
    the node with the range of every kept match replaced by its display
    text.  When every kept match displays the very text it covers, the
    fragment shows the text of the node unchanged. *)
Theorem fragment_shows_text_with_matches_replaced :
  forall (text : string) (allMatches : list PathMatch),
    (replace_text_node text allMatches = None <-> allMatches = []) /\
    (forall nodes : list FragmentNode,
       replace_text_node text allMatches = Some nodes ->
       spans_of nodes =
         ((fun m => (pm_displayText m,
                     if decide (pm_path m = pm_displayText m) then None
                     else Some (pm_path m),
                     pm_path m))
            <$> removeOverlaps 0 (sort_matches allMatches)) /\
       fragment_text nodes =
         with_display_texts text 0 (removeOverlaps 0 (sort_matches allMatches)) /\
       (Forall (displays_covered_text text)
               (removeOverlaps 0 (sort_matches allMatches)) ->
        fragment_text nodes = text)).
Proof.
  intros text allMatches. unfold replace_text_node.
  assert (Hnil : removeOverlaps 0 (sort_matches allMatches) = [] <-> allMatches = []).
  { unfold sort_matches.
    destruct (sort_matches_acc allMatches [] I) as [Hp Hs]. cbn [app] in Hp.
    split; [| intros ->; reflexivity].
    intros Hk. destruct allMatches as [| m ms]; [reflexivity |]. exfalso.
    assert (Hm : m ∈ foldl (fun sorted m0 => insert_match m0 sorted) [] (m :: ms))
      by (rewrite Hp; apply list_elem_of_here).
    destruct (removeOverlaps_dropped _ 0 0 Hs m Hm) as [H | [H | (k & H & _)]];
      [| lia |]; rewrite Hk in H; inversion H. }
  pose proof (removeOverlaps_disjoint (sort_matches allMatches) 0) as Hdis.
  destruct (removeOverlaps 0 (sort_matches allMatches)) as [| k kept] eqn:E.
  - cbn. split; [split; [intros _; now apply Hnil | reflexivity] | discriminate].
  - cbn [length Nat.eqb]. split.
    + split; [discriminate |]. intros H. apply Hnil in H. discriminate H.
    + intros nodes H.
      assert (Hn : nodes = fill_fragment text 0 (k :: kept)) by congruence.
      rewrite Hn. split; [apply fill_fragment_spans |].
      rewrite (fill_fragment_text _ _ _ Hdis). split; [reflexivity |].
      intros Hall. now rewrite (with_display_texts_covered _ _ _ Hdis Hall).
Qed.

(** ** Servers in the settings *)

Lemma set_mcpServers_same (st : Settings) (l : option (list McpServerConfig)) :
  mcpServers st = l -> set_mcpServers st l = st.
Proof. intros <-. now destruct st. Qed.

(** X15: "Delete" removes every server that carries the identifier of
    the server clicked, and nothing else: the servers with another
    identifier all stay, in their order, and no other setting
    changes. *)
Theorem deleteServer_removes_servers_with_the_id :
  forall (id : string) (st : Settings) (before : list McpServerConfig),
    mcpServers st = Some before ->
    exists after : list McpServerConfig,
      mcpServers (deleteServer id st) = Some after /\
      after = filter (fun s => mcp_id s <> id) before /\
      (forall s : McpServerConfig, s ∈ after -> mcp_id s <> id) /\
      (forall s : McpServerConfig, s ∈ before -> mcp_id s <> id -> s ∈ after) /\
      (after `sublist_of` before) /\
      apiKey (deleteServer id st) = apiKey st /\
      model (deleteServer id st) = model st /\
      autoApproveVaultReads (deleteServer id st) = autoApproveVaultReads st /\
      autoApproveVaultWrites (deleteServer id st) = autoApproveVaultWrites st /\
      requireBashApproval (deleteServer id st) = requireBashApproval st /\
      alwaysAllowedTools (deleteServer id st) = alwaysAllowedTools st /\
      maxBudgetPerSession (deleteServer id st) = maxBudgetPerSession st /\
      maxTurns (deleteServer id st) = maxTurns st.
Proof.
  intros id st before Hb. eexists. unfold deleteServer.
  cbn [mcpServers set_mcpServers]. rewrite Hb.
  cbn [fmap option_fmap option_map].
  split; [reflexivity |]. split; [reflexivity |].
  split; [intros s Hs; now apply list_elem_of_filter in Hs |].
  split; [intros s Hs Hid; now apply list_elem_of_filter |].
  split; [apply sublist_filter | now repeat split].
Qed.

(** Two servers that were given the same identifier, and a third. *)
Lemma deleteServer_removes_servers_with_the_id_witness :
  mcpServers
    (deleteServer "mcp-1700000000000"
       (set_mcpServers default_settings
          (Some [github_server;
                 {| mcp_id := "mcp-1700000000001"; mcp_name := "files";
                    mcp_command := "npx"; mcp_args := []; mcp_env := None;
                    mcp_enabled := true |};
                 {| mcp_id := "mcp-1700000000000"; mcp_name := "search";
                    mcp_command := "npx"; mcp_args := []; mcp_env := None;
                    mcp_enabled := true |}])))
  = Some [{| mcp_id := "mcp-1700000000001"; mcp_name := "files";
             mcp_command := "npx"; mcp_args := []; mcp_env := None;
             mcp_enabled := true |}].
Proof.
  destruct (deleteServer_removes_servers_with_the_id "mcp-1700000000000"
              (set_mcpServers default_settings
                 (Some [github_server;
                        {| mcp_id := "mcp-1700000000001"; mcp_name := "files";
                           mcp_command := "npx"; mcp_args := []; mcp_env := None;
                           mcp_enabled := true |};
                        {| mcp_id := "mcp-1700000000000"; mcp_name := "search";
                           mcp_command := "npx"; mcp_args := []; mcp_env := None;
                           mcp_enabled := true |}]))
              _ eq_refl) as (after & H & -> & _).
  rewrite H. reflexivity.
Defined.

(** X16: adding a server and deleting it again gives back the list of
    servers, provided that no server of the list carries the
    identifier of the new one. *)
Theorem add_then_delete_restores_servers :
  forall (cfg : McpServerConfig) (st : Settings),
    (forall s : McpServerConfig,
       s ∈ default [] (mcpServers st) -> mcp_id s <> mcp_id cfg) ->
    mcpServers (deleteServer (mcp_id cfg) (addServer cfg st)) =
      Some (default [] (mcpServers st)) /\
    (is_Some (mcpServers st) ->
     deleteServer (mcp_id cfg) (addServer cfg st) = st).
Proof.
  intros cfg st Hfresh.
  assert (H : filter (fun s => mcp_id s <> mcp_id cfg)
                (default [] (mcpServers st) ++ [cfg])%list
              = default [] (mcpServers st)).
  { rewrite filter_app, filter_cons, filter_nil.
    destruct (decide (mcp_id cfg <> mcp_id cfg)) as [Hn | _]; [now elim Hn |].
    rewrite app_nil_r. revert Hfresh.
    generalize (default [] (mcpServers st)).
    induction l as [| x l IH]; intros Hfresh; [reflexivity |].
    rewrite filter_cons. destruct (decide (mcp_id x <> mcp_id cfg)) as [_ | Hx].
    - f_equal. apply IH. intros s Hs. apply Hfresh. now apply list_elem_of_further.
    - elim Hx. apply Hfresh. apply list_elem_of_here. }
  unfold deleteServer, addServer.
  cbn [mcpServers set_mcpServers fmap option_fmap option_map].
  rewrite H. split; [reflexivity |].
  intros [l Hl]. rewrite Hl. cbn [default]. destruct st. cbn in Hl |- *.
  now rewrite Hl.
Qed.

(** Adding the server "github" to settings that hold the server
    "files", which carries another identifier, and deleting it
    again. *)
Lemma add_then_delete_restores_servers_witness :
  (forall s : McpServerConfig,
     s ∈ default [] (mcpServers settings_with_files) ->
     mcp_id s <> mcp_id github_server) /\
  mcpServers settings_with_files = Some [files_server] /\
  deleteServer (mcp_id github_server) (addServer github_server settings_with_files)
  = settings_with_files.
Proof.
  assert (Hfresh : forall s : McpServerConfig,
            s ∈ default [] (mcpServers settings_with_files) ->
            mcp_id s <> mcp_id github_server).
  { intros s Hs. cbn in Hs. apply list_elem_of_singleton in Hs. subst s.
    discriminate. }
  split; [exact Hfresh |]. split; [reflexivity |].
  apply (add_then_delete_restores_servers github_server settings_with_files Hfresh).
  now eexists.
Defined.

(** X17: a click on "Save" in the modal opened by "+ Add Server"
    appends one server, identified by "mcp-" and the time, to the list
    and leaves the servers before it in place; a rejected click leaves
    the list alone.  Without a list in the settings the new server is
    the only one. *)
Theorem save_from_add_modal_appends_one_server :
  forall (now : N) (m : McpServerModal) (st : Settings),
    server m = None -> onSave m = addServer ->
    let r := save now m st in
    (sr_saved r = None /\ sr_settings r = st) \/
    (exists cfg : McpServerConfig,
       sr_saved r = Some cfg /\
       mcp_id cfg = "mcp-" +:+ pretty now /\ mcp_enabled cfg = true /\
       mcpServers (sr_settings r) =
         Some (default [] (mcpServers st) ++ [cfg])%list /\
       forall (i : nat) (s : McpServerConfig),
         default [] (mcpServers st) !! i = Some s ->
         default [] (mcpServers (sr_settings r)) !! i = Some s).
Proof.
  intros now m st Hsrv Hcb r. subst r. unfold save. rewrite Hsrv, Hcb.
  destruct (String.eqb (trim (nameInput m)) ""); [left; now split |].
  destruct (String.eqb (trim (commandInput m)) ""); [left; now split |].
  right. eexists. cbn [sr_saved sr_settings mcp_id mcp_enabled].
  split; [reflexivity |]. split; [reflexivity |]. split; [reflexivity |].
  split; [reflexivity |].
  intros i s Hi. cbn [addServer mcpServers set_mcpServers default].
  now apply lookup_app_l_Some.
Qed.

(** The add modal filled in for a file system server. *)
Lemma save_from_add_modal_appends_one_server_witness :
  mcpServers
    (sr_settings
       (save 1700000000000
          {| server := None; onSave := addServer; nameInput := " files ";
             commandInput := "npx"; argsInput := "-y  server-files /vault";
             envInput := ""; isOpen := true |}
          default_settings))
  = Some [{| mcp_id := "mcp-1700000000000"; mcp_name := "files";
             mcp_command := "npx";
             mcp_args := ["-y"; "server-files"; "/vault"];
             mcp_env := None; mcp_enabled := true |}].
Proof.
  destruct (save_from_add_modal_appends_one_server 1700000000000
              {| server := None; onSave := addServer; nameInput := " files ";
                 commandInput := "npx"; argsInput := "-y  server-files /vault";
                 envInput := ""; isOpen := true |}
              default_settings eq_refl eq_refl)
    as [[H _] | (cfg & H & _)]; [vm_compute in H; discriminate H |].
  vm_compute. reflexivity.
Defined.

(** ** The number fields, continued *)

Lemma apply_edit_frame (parseFloat : string -> JSNumber) (e : edit) (st : Settings) :
  apiKey (apply_edit parseFloat st e) = apiKey st /\
  model (apply_edit parseFloat st e) = model st /\
  autoApproveVaultReads (apply_edit parseFloat st e) = autoApproveVaultReads st /\
  autoApproveVaultWrites (apply_edit parseFloat st e) = autoApproveVaultWrites st /\
  requireBashApproval (apply_edit parseFloat st e) = requireBashApproval st /\
  alwaysAllowedTools (apply_edit parseFloat st e) = alwaysAllowedTools st /\
  mcpServers (apply_edit parseFloat st e) = mcpServers st.
Proof.
  destruct e as [v | v]; cbn [apply_edit].
  - rewrite onChange_maxBudgetPerSession_guard.
    now destruct (negb (isNaN (parseFloat v)) && gt0 (parseFloat v)).
  - rewrite onChange_maxTurns_guard.
    now destruct (negb (isNaN (parseInt v)) && gt0 (parseInt v)).
Qed.

(** X18: the two number fields touch nothing but their own setting: an
    edit of the budget never changes the turns, an edit of the turns
    never changes the budget, and no sequence of edits of the two
    changes any other setting. *)
Theorem number_fields_change_their_own_setting_only :
  (forall (parseFloat : string -> JSNumber) (st : Settings) (value : string),
     maxTurns (onChange_maxBudgetPerSession parseFloat st value) = maxTurns st) /\
  (forall (st : Settings) (value : string),
     maxBudgetPerSession (onChange_maxTurns st value) = maxBudgetPerSession st) /\
  (forall (parseFloat : string -> JSNumber) (es : list edit) (st : Settings),
     apiKey (apply_edits parseFloat st es) = apiKey st /\
     model (apply_edits parseFloat st es) = model st /\
     autoApproveVaultReads (apply_edits parseFloat st es) = autoApproveVaultReads st /\
     autoApproveVaultWrites (apply_edits parseFloat st es) = autoApproveVaultWrites st /\
     requireBashApproval (apply_edits parseFloat st es) = requireBashApproval st /\
     alwaysAllowedTools (apply_edits parseFloat st es) = alwaysAllowedTools st /\
     mcpServers (apply_edits parseFloat st es) = mcpServers st).
Proof.
  split; [| split].
  - intros parseFloat st value. rewrite onChange_maxBudgetPerSession_guard.
    now destruct (negb (isNaN (parseFloat value)) && gt0 (parseFloat value)).
  - intros st value. rewrite onChange_maxTurns_guard.
    now destruct (negb (isNaN (parseInt value)) && gt0 (parseInt value)).
  - intros parseFloat es. unfold apply_edits.
    induction es as [| e es IH]; intros st; [now repeat split |].
    cbn [foldl].
    destruct (IH (apply_edit parseFloat st e)) as (H1 & H2 & H3 & H4 & H5 & H6 & H7).
    destruct (apply_edit_frame parseFloat e st) as (F1 & F2 & F3 & F4 & F5 & F6 & F7).
    repeat split; congruence.
Qed.

(** ** What [parseInt] reads *)

Lemma isDigit_not_space (c : ascii) : isDigit c = true -> isWhiteSpace c = false.
Proof.
  unfold isDigit, isWhiteSpace. intros H.
  apply andb_true_iff in H as [H1 H2]. apply Nat.leb_le in H1, H2.
  repeat match goal with
         | |- context [(?a <=? ?b)%nat] => destruct (Nat.leb_spec a b)
         | |- context [(?a =? ?b)%nat] => destruct (Nat.eqb_spec a b)
         end; cbn; try reflexivity; lia.
Qed.

Lemma isDigit_not_sign (c : ascii) (s : string) :
  isDigit c = true ->
  match String c s with
  | String "-" rest => ((-1)%Z, rest)
  | String "+" rest => (1%Z, rest)
  | _ => (1%Z, String c s)
  end = (1%Z, String c s).
Proof.
  destruct c as [[] [] [] [] [] [] [] []]; intros H; try reflexivity;
    discriminate H.
Qed.

Lemma leading_digits_append (ds rest : string) :
  digits_only ds = true -> no_digit_ahead rest = true ->
  leading_digits (ds +:+ rest) = leading_digits ds.
Proof.
  intros Hd Hr. induction ds as [| c ds IH].
  - rewrite append_nil. destruct rest as [| c rest]; [reflexivity |].
    cbn in Hr |- *. apply negb_true_iff in Hr. now rewrite Hr.
  - rewrite append_cons. cbn in Hd |- *.
    apply andb_true_iff in Hd as [Hc Hd]. rewrite Hc. now rewrite IH.
Qed.

Lemma parseInt_digits_first (c : ascii) (s : string) :
  isDigit c = true ->
  parseInt (String c s) =
    match leading_digits (String c s) with
    | [] => NaN
    | ds => Number_of_Z (1 * decimal_value ds)
    end.
Proof.
  intros Hc. unfold parseInt. cbn [trimStart].
  rewrite (isDigit_not_space c Hc). now rewrite (isDigit_not_sign c s Hc).
Qed.

(** X19: [parseInt] stops at the first character that is no digit, so
    the field "Max turns per query" takes a number followed by any text
    for the number alone: "12abc" and "3.9" are stored as 12 and 3. *)
Theorem maxTurns_ignores_text_behind_the_digits :
  forall (st : Settings) (digits rest : string),
    digits <> "" -> digits_only digits = true -> no_digit_ahead rest = true ->
    parseInt (digits +:+ rest) = parseInt digits /\
    onChange_maxTurns st (digits +:+ rest) = onChange_maxTurns st digits.
Proof.
  intros st digits rest Hne Hd Hr.
  assert (E : parseInt (digits +:+ rest) = parseInt digits).
  { destruct digits as [| c ds]; [now elim Hne |].
    assert (Hc : isDigit c = true) by (cbn in Hd; now apply andb_true_iff in Hd).
    rewrite (parseInt_digits_first c ds Hc).
    rewrite append_cons, (parseInt_digits_first c (ds +:+ rest) Hc).
    rewrite <- append_cons. now rewrite (leading_digits_append _ _ Hd Hr). }
  split; [exact E |]. now rewrite !onChange_maxTurns_guard, E.
Qed.

(** The inputs "12abc" and "3.9". *)
Lemma maxTurns_ignores_text_behind_the_digits_witness :
  maxTurns (onChange_maxTurns default_settings "12abc") = Fin (inject_Z 12) /\
  maxTurns (onChange_maxTurns default_settings "3.9") = Fin (inject_Z 3).
Proof.
  destruct (maxTurns_ignores_text_behind_the_digits default_settings "12" "abc")
    as [_ H1]; [discriminate | reflexivity | reflexivity |].
  destruct (maxTurns_ignores_text_behind_the_digits default_settings "3" ".9")
    as [_ H2]; [discriminate | reflexivity | reflexivity |].
  split.
  - change "12abc" with ("12" +:+ "abc"). rewrite H1. reflexivity.
  - change "3.9" with ("3" +:+ ".9"). rewrite H2. reflexivity.
Defined.

(** ** The number shown and read again *)

Lemma pretty_N_char_digit (d : N) :
  (d < 10)%N ->
  isDigit (pretty_N_char d) = true /\
  Z.of_nat (nat_of_ascii (pretty_N_char d) - 48) = Z.of_N d.
Proof.
  intros H.
  assert (Hd : (d = 0 \/ d = 1 \/ d = 2 \/ d = 3 \/ d = 4 \/ d = 5 \/ d = 6 \/
                d = 7 \/ d = 8 \/ d = 9)%N) by lia.
  repeat (destruct Hd as [-> | Hd]; [split; reflexivity |]).
  subst d. split; reflexivity.
Qed.

Lemma decimal_value_acc (ds : list Z) :
  forall a : Z,
    foldl (fun acc d => (10 * acc + d)%Z) a ds =
    (a * 10 ^ Z.of_nat (length ds) + decimal_value ds)%Z.
Proof.
  unfold decimal_value. induction ds as [| d ds IH]; intros a.
  - cbn. lia.
  - cbn [foldl length]. rewrite IH, (IH (10 * 0 + d)%Z).
    rewrite Nat2Z.inj_succ, Z.pow_succ_r by lia. ring.
Qed.

Lemma leading_digits_length (s : string) :
  digits_only s = true -> length (leading_digits s) = String.length s.
Proof.
  induction s as [| c s IH]; [reflexivity |]. cbn.
  intros H. apply andb_true_iff in H as [Hc Hs]. rewrite Hc. cbn. now rewrite IH.
Qed.

Lemma pretty_N_go_digits (x : N) :
  forall s : string,
    digits_only s = true ->
    digits_only (pretty_N_go x s) = true /\
    decimal_value (leading_digits (pretty_N_go x s)) =
      (Z.of_N x * 10 ^ Z.of_nat (String.length s)
       + decimal_value (leading_digits s))%Z.
Proof.
  induction (N.lt_wf_0 x) as [x _ IH]. intros s Hs.
  destruct (N.eq_dec x 0%N) as [-> | Hx].
  - rewrite pretty_N_go_0. split; [exact Hs | cbn; lia].
  - rewrite pretty_N_go_step by lia.
    assert (Hlt : (x `mod` 10 < 10)%N) by (apply N.mod_lt; lia).
    destruct (pretty_N_char_digit _ Hlt) as [Hc Hv].
    destruct (IH (x `div` 10)%N) with (s := String (pretty_N_char (x `mod` 10)) s)
      as [Hd Hval].
    { apply N.div_lt; lia. }
    { cbn. now rewrite Hc, Hs. }
    split; [exact Hd |]. rewrite Hval.
    cbn [leading_digits String.length]. rewrite Hc, Hv.
    unfold decimal_value at 1. cbn [foldl]. rewrite decimal_value_acc.
    rewrite (leading_digits_length s Hs).
    rewrite Nat2Z.inj_succ, Z.pow_succ_r by lia.
    rewrite N2Z.inj_div, N2Z.inj_mod. cbn [Z.of_N].
    pose proof (Z.div_mod (Z.of_N x) 10%Z ltac:(lia)) as Hdm.
    set (q := (Z.of_N x / 10)%Z) in *. set (r := (Z.of_N x mod 10)%Z) in *.
    rewrite Hdm. ring.
Qed.

Lemma Number_of_Z_small (z : Z) :
  (0 <= z < 2 ^ 53)%Z -> Number_of_Z z = Fin (inject_Z z).
Proof.
  intros [H0 H53]. unfold Number_of_Z.
  rewrite (Z.abs_eq z H0).
  assert (Hlog : (Z.log2 z <= 52)%Z).
  { destruct (Z.eq_dec z 0%Z) as [-> | Hz]; [cbn; lia |].
    assert (Z.log2 z < 53)%Z by (apply Z.log2_lt_pow2; lia). lia. }
  apply Z.leb_le in Hlog. rewrite Hlog.
  assert (Hbig : (z < 2 ^ 1024)%Z).
  { apply Z.lt_trans with (2 ^ 53)%Z; [exact H53 |].
    apply Z.pow_lt_mono_r; lia. }
  apply Z.leb_gt in Hbig. rewrite Hbig.
  f_equal. f_equal. destruct (Z.eq_dec z 0%Z) as [-> | Hz]; [reflexivity |].
  rewrite Z.sgn_pos by lia. lia.
Qed.

Lemma parseInt_String_of_N (n : N) :
  (0 < n < 2 ^ 53)%N -> parseInt (String_of_N n) = Fin (inject_Z (Z.of_N n)).
Proof.
  intros [Hpos Hlt]. unfold String_of_N, pretty, pretty_N.
  destruct (decide (n = 0%N)) as [-> | _]; [lia |].
  destruct (pretty_N_go_digits n "" eq_refl) as [Hd Hv].
  cbn [leading_digits String.length decimal_value foldl Z.of_nat] in Hv.
  replace (decimal_value []) with 0%Z in Hv by reflexivity.
  rewrite Z.pow_0_r, Z.mul_1_r, Z.add_0_r in Hv.
  destruct (pretty_N_go n "") as [| c t] eqn:E.
  - cbn in Hv. lia.
  - assert (Hc : isDigit c = true) by (cbn in Hd; now apply andb_true_iff in Hd).
    rewrite (parseInt_digits_first c t Hc).
    destruct (leading_digits (String c t)) as [| d ds] eqn:El.
    + cbn in El. rewrite Hc in El. discriminate El.
    + rewrite Hv, Z.mul_1_l. apply Number_of_Z_small.
      split; [lia |]. change (2 ^ 53)%Z with (Z.of_N (2 ^ 53)%N). lia.
Qed.

(** X20: the field "Max turns per query" shows [String(maxTurns)]; for
    a positive integer below [2^53], reading that text back gives the
    number again, so entering again what the field shows leaves the
    settings as they are. *)
Theorem maxTurns_shown_and_entered_again_is_kept :
  forall (st : Settings) (n : N),
    (0 < n < 2 ^ 53)%N ->
    parseInt (String_of_N n) = Fin (inject_Z (Z.of_N n)) /\
    (maxTurns st = Fin (inject_Z (Z.of_N n)) ->
     onChange_maxTurns st (String_of_N n) = st) /\
    maxTurns (onChange_maxTurns st (String_of_N n)) = Fin (inject_Z (Z.of_N n)).
Proof.
  intros st n Hn. pose proof (parseInt_String_of_N n Hn) as Hp.
  split; [exact Hp |].
  assert (Hg : negb (isNaN (Fin (inject_Z (Z.of_N n))))
               && gt0 (Fin (inject_Z (Z.of_N n))) = true).
  { cbn. apply Z.ltb_lt. lia. }
  rewrite onChange_maxTurns_guard, Hp, Hg. split; [| reflexivity].
  intros Hm. rewrite <- Hm. now destruct st.
Qed.

(** The default of 50 turns. *)
Lemma maxTurns_shown_and_entered_again_is_kept_witness :
  onChange_maxTurns default_settings (String_of_N 50%N) = default_settings.
Proof.
  apply (maxTurns_shown_and_entered_again_is_kept default_settings 50%N).
  - split; [reflexivity |]. reflexivity.
  - reflexivity.
Defined.

(** ** The form of the modal, filled and read back *)

Lemma words_acc_word (w : string) :
  forall rest cur : string,
    no_space w = true -> words_acc (w +:+ rest) cur = words_acc rest (cur +:+ w).
Proof.
  induction w as [| c w IH]; intros rest cur H.
  - now rewrite append_nil, append_empty_r.
  - cbn in H. apply andb_true_iff in H as [Hc Hw]. apply negb_true_iff in Hc.
    rewrite append_cons. cbn [words_acc]. rewrite Hc, (IH _ _ Hw).
    now rewrite append_assoc, append_cons, append_nil.
Qed.

Lemma words_join (l : list string) :
  forall a : string,
    Forall (fun x => x <> "" /\ no_space x = true) (a :: l) ->
    words (join " " (a :: l)) = a :: l.
Proof.
  unfold words, join. induction l as [| b l IH]; intros a Hall.
  - apply Forall_cons in Hall as [[Hne Hns] _]. cbn [String.concat].
    rewrite <- (append_empty_r a) at 1. rewrite (words_acc_word a "" "" Hns).
    rewrite append_nil. cbn. apply string_eqb_false in Hne. now rewrite Hne.
  - apply Forall_cons in Hall as [[Hne Hns] Hall]. cbn [String.concat].
    rewrite (words_acc_word a _ "" Hns), append_nil.
    rewrite append_cons, append_nil. cbn [words_acc].
    replace (isWhiteSpace " ") with true by reflexivity.
    apply string_eqb_false in Hne. rewrite Hne. f_equal. now apply IH.
Qed.

Lemma occurs_app (c : ascii) (a b : string) :
  occurs c (a +:+ b) = occurs c a || occurs c b.
Proof.
  induction a as [| x a IH]; [reflexivity |].
  rewrite append_cons. cbn. now rewrite IH, orb_assoc.
Qed.

Lemma split_char_acc_piece (sep : ascii) (w : string) :
  forall rest cur : string,
    occurs sep w = false ->
    split_char_acc sep (w +:+ rest) cur = split_char_acc sep rest (cur +:+ w).
Proof.
  induction w as [| c w IH]; intros rest cur H.
  - now rewrite append_nil, append_empty_r.
  - cbn in H. apply orb_false_iff in H as [Hc Hw].
    rewrite append_cons. cbn [split_char_acc]. rewrite Hc, (IH _ _ Hw).
    now rewrite append_assoc, append_cons, append_nil.
Qed.

Lemma split_join (sep : ascii) (l : list string) :
  forall a : string,
    Forall (fun x => occurs sep x = false) (a :: l) ->
    split_char sep (join (String sep "") (a :: l)) = a :: l.
Proof.
  unfold split_char, join. induction l as [| b l IH]; intros a Hall.
  - apply Forall_cons in Hall as [Ha _]. cbn [String.concat].
    rewrite <- (append_empty_r a) at 1. rewrite (split_char_acc_piece sep a "" "" Ha).
    now rewrite append_nil.
  - apply Forall_cons in Hall as [Ha Hall]. cbn [String.concat].
    rewrite (split_char_acc_piece sep a _ "" Ha), append_nil.
    rewrite append_cons, append_nil. cbn [split_char_acc].
    rewrite Ascii.eqb_refl. f_equal. now apply IH.
Qed.

Lemma assigns_entry (k v k' v' : string) :
  trim k = k -> k <> "" -> occurs "=" k = false -> trim v = v ->
  assigns (env_entry (k, v)) k' v' <-> k' = k /\ v' = v.
Proof.
  intros Hk Hne Heq Hv. unfold env_entry. cbn [fst snd]. split.
  - intros (pre & post & E & Hpre & -> & _ & ->).
    destruct (first_occurrence_unique "=" k pre v post Heq Hpre E) as [<- <-].
    now split.
  - intros [-> ->]. exists k, v. now repeat split.
Qed.

Lemma last_assignment_entries (L : list (string * string)) (k v : string) :
  NoDup (L.*1) ->
  (forall k0 v0 : string, (k0, v0) ∈ L ->
     trim k0 = k0 /\ k0 <> "" /\ occurs "=" k0 = false /\ trim v0 = v0) ->
  last_assignment (env_entry <$> L) k v <-> (k, v) ∈ L.
Proof.
  intros Hnd Hwf. split.
  - intros (before & after & line & E & Ha & _).
    assert (Hin : line ∈ env_entry <$> L)
      by (rewrite E; apply elem_of_app; right; apply list_elem_of_here).
    apply list_elem_of_fmap in Hin as ([k0 v0] & -> & Hin).
    destruct (Hwf k0 v0 Hin) as (H1 & H2 & H3 & H4).
    apply (assigns_entry k0 v0 k v H1 H2 H3 H4) in Ha as [-> ->]. exact Hin.
  - intros Hin. destruct (list_elem_of_split _ _ Hin) as (L1 & L2 & ->).
    exists (env_entry <$> L1), (env_entry <$> L2), (env_entry (k, v)).
    split; [now rewrite fmap_app |].
    destruct (Hwf k v Hin) as (H1 & H2 & H3 & H4).
    split; [now apply assigns_entry |].
    intros l v' Hl Ha.
    apply list_elem_of_fmap in Hl as ([k2 v2] & -> & Hl).
    assert (Hin2 : (k2, v2) ∈ (L1 ++ (k, v) :: L2)%list)
      by (apply elem_of_app; right; now apply list_elem_of_further).
    destruct (Hwf k2 v2 Hin2) as (G1 & G2 & G3 & G4).
    apply (assigns_entry k2 v2 k v' G1 G2 G3 G4) in Ha as [-> _].
    rewrite fmap_app, fmap_cons in Hnd. apply NoDup_app in Hnd as (_ & _ & Hnd).
    apply NoDup_cons in Hnd as [Hnot _]. apply Hnot.
    apply list_elem_of_fmap. now exists (k2, v2).
Qed.

Lemma strip_newlines_one_line (s : string) : one_line s -> strip_newlines s = s.
Proof.
  unfold one_line. induction s as [| c s IH]; [reflexivity |]. cbn.
  intros [Hlf Hcr]. apply orb_false_iff in Hlf as [-> Hlf], Hcr as [-> Hcr].
  cbn. now rewrite IH.
Qed.

Lemma normalize_newlines_no_return (s : string) :
  occurs "013" s = false -> normalize_newlines s = s.
Proof.
  induction s as [| c s IH]; [reflexivity |]. cbn [occurs normalize_newlines].
  intros H. apply orb_false_iff in H as [-> H]. now rewrite IH.
Qed.

Lemma no_space_one_line (s : string) : no_space s = true -> one_line s.
Proof.
  unfold one_line. induction s as [| c s IH]; [now split |]. cbn.
  intros H. apply andb_true_iff in H as [Hc Hs]. destruct (IH Hs) as [-> ->].
  rewrite !orb_false_r.
  split.
  - destruct (Ascii.eqb c "010") eqn:E; [| reflexivity].
    apply Ascii.eqb_eq in E. subst c. discriminate Hc.
  - destruct (Ascii.eqb c "013") eqn:E; [| reflexivity].
    apply Ascii.eqb_eq in E. subst c. discriminate Hc.
Qed.

Lemma occurs_join (c : ascii) (sep : string) (l : list string) :
  occurs c sep = false -> Forall (fun x => occurs c x = false) l ->
  occurs c (join sep l) = false.
Proof.
  intros Hsep Hall. unfold join.
  induction Hall as [| x l Hx Hl IH]; [reflexivity |].
  destruct l as [| y l]; [exact Hx |].
  cbn [String.concat] in IH |- *. now rewrite !occurs_app, Hx, Hsep, IH.
Qed.

Lemma parse_env_entries (env : gmap string string) :
  well_formed_env env ->
  parse_env
    (normalize_newlines (join (String "010" "") (env_entry <$> map_to_list env))) =
  env.
Proof.
  intros [Hne Hwf].
  rewrite normalize_newlines_no_return.
  2:{ apply occurs_join; [reflexivity |].
      apply Forall_forall. intros line Hl.
      apply list_elem_of_fmap in Hl as ([k0 v0] & -> & Hl).
      apply elem_of_map_to_list in Hl.
      destruct (Hwf k0 v0 Hl) as (_ & _ & _ & _ & [_ Hk] & _ & [_ Hv]).
      unfold env_entry. cbn [fst snd]. rewrite !occurs_app, Hk, Hv. reflexivity. }
  apply map_eq. intros k. apply option_eq. intros v.
  rewrite parse_env_lookup.
  assert (Hlines : split_char "010"
                     (join (String "010" "") (env_entry <$> map_to_list env))
                   = env_entry <$> map_to_list env).
  { destruct (map_to_list env) as [| kv L] eqn:E.
    - apply map_to_list_empty_iff in E. contradiction.
    - rewrite fmap_cons. apply split_join. rewrite <- fmap_cons, <- E.
      apply Forall_forall. intros line Hl.
      apply list_elem_of_fmap in Hl as ([k0 v0] & -> & Hl).
      apply elem_of_map_to_list in Hl.
      destruct (Hwf k0 v0 Hl) as (_ & _ & _ & _ & [Hk _] & _ & [Hv _]).
      unfold env_entry. cbn [fst snd]. rewrite !occurs_app, Hk, Hv. reflexivity. }
  rewrite Hlines, last_assignment_entries.
  - rewrite elem_of_map_to_list. split; [now intros [_ H] |].
    intros H. split; [apply (Hwf k v H) | exact H].
  - apply NoDup_fst_map_to_list.
  - intros k0 v0 Hin. apply elem_of_map_to_list in Hin.
    destruct (Hwf k0 v0 Hin) as (H1 & H2 & _ & H3 & _ & H4 & _). now repeat split.
Qed.

Lemma or_else_or_empty (s : string) : or_else (Some s) "" = s.
Proof. cbn. destruct s; reflexivity. Qed.

Lemma save_accepts (now : N) (m : McpServerModal) (st : Settings) :
  trim (nameInput m) <> "" -> trim (commandInput m) <> "" ->
  save now m st =
    let cfg := {|
      mcp_id := or_else (mcp_id <$> server m) ("mcp-" +:+ pretty now);
      mcp_name := trim (nameInput m);
      mcp_command := trim (commandInput m);
      mcp_args := words (argsInput m);
      mcp_env := if (0 <? size (parse_env (envInput m)))%nat
                 then Some (parse_env (envInput m)) else None;
      mcp_enabled := match server m with Some s => mcp_enabled s | None => true end
    |} in
    {| sr_modal := close m; sr_settings := onSave m cfg st;
       sr_notice := None; sr_saved := Some cfg |}.
Proof.
  intros Hn Hc. unfold save. apply string_eqb_false in Hn, Hc.
  rewrite Hn, Hc. cbn zeta. now rewrite split_trim_words.
Qed.

Lemma alter_same {A} (l : list A) (i : nat) (x : A) :
  l !! i = Some x -> alter (fun _ => x) i l = l.
Proof.
  revert i. induction l as [| a l IH]; intros i H; [reflexivity |].
  destruct i as [| i]; cbn in H |- *.
  - now injection H as ->.
  - f_equal. now apply IH.
Qed.

Lemma reopened_server_is_saved (now : N) (s : McpServerConfig)
    (cb : McpServerConfig -> Settings -> Settings) (st : Settings) :
  well_formed_server s ->
  save now (onOpen (Some s) cb) st =
    {| sr_modal := close (onOpen (Some s) cb); sr_settings := cb s st;
       sr_notice := None; sr_saved := Some s |}.
Proof.
  intros (Hid & Hnt & Hn & Hnl & Hct & Hc & Hcl & Hargs & Henv).
  assert (En : nameInput (onOpen (Some s) cb) = mcp_name s).
  { cbn [nameInput onOpen fmap option_fmap option_map].
    rewrite (or_else_some _ _ Hn). now apply strip_newlines_one_line. }
  assert (Ec : commandInput (onOpen (Some s) cb) = mcp_command s).
  { cbn [commandInput onOpen fmap option_fmap option_map].
    rewrite (or_else_some _ _ Hc). now apply strip_newlines_one_line. }
  rewrite save_accepts; [| rewrite En, Hnt; exact Hn | rewrite Ec, Hct; exact Hc].
  cbn zeta. rewrite En, Ec, Hnt, Hct.
  assert (Ea : words (argsInput (onOpen (Some s) cb)) = mcp_args s).
  { cbn [argsInput onOpen fmap option_fmap option_map].
    rewrite or_else_or_empty, strip_newlines_one_line.
    - destruct (mcp_args s) as [| a l]; [reflexivity |]. now apply words_join.
    - split; (apply occurs_join; [reflexivity |]);
        (eapply Forall_impl; [exact Hargs |]); intros a [_ Ha];
        now apply no_space_one_line in Ha as [? ?]. }
  assert (Ee : (if (0 <? size (parse_env (envInput (onOpen (Some s) cb))))%nat
                then Some (parse_env (envInput (onOpen (Some s) cb))) else None)
               = mcp_env s).
  { cbn [envInput onOpen mbind option_bind].
    destruct (mcp_env s) as [env |]; [| reflexivity].
    rewrite (parse_env_entries env Henv). destruct Henv as [Hne _].
    apply map_size_non_empty_iff in Hne.
    destruct (Nat.ltb_spec 0 (size env)); [reflexivity | lia]. }
  rewrite Ea, Ee. cbn [server onOpen onSave fmap option_fmap option_map].
  rewrite (or_else_some _ _ Hid). now destruct s.
Qed.

(** X21: the form gives back what it was given.  Take a server whose
    stored fields are as the form writes them: identifier, name and
    command are not empty, name and command are trimmed and hold no
    line break, the arguments are non-empty words without white space,
    and the environment, when there is one, is not empty, with trimmed
    keys and values without line breaks, no key empty, holding an
    equals sign, or being "__proto__".  Opening the modal on such a
    server and clicking "Save" at once hands the very same
    configuration to [onSave], without a notice; with the callback of
    "Edit" the settings are then exactly what they were. *)
Theorem reopening_and_saving_keeps_the_server :
  forall (now : N) (s : McpServerConfig) (st : Settings),
    well_formed_server s ->
    (forall cb : McpServerConfig -> Settings -> Settings,
       sr_saved (save now (onOpen (Some s) cb) st) = Some s /\
       sr_notice (save now (onOpen (Some s) cb) st) = None) /\
    (forall (i : nat) (l : list McpServerConfig),
       mcpServers st = Some l -> l !! i = Some s ->
       sr_settings (save now (onOpen (Some s) (editServer i)) st) = st).
Proof.
  intros now s st Hwf. split.
  - intros cb. now rewrite (reopened_server_is_saved now s cb st Hwf).
  - intros i l Hl Hi. rewrite (reopened_server_is_saved now s _ st Hwf).
    cbn [sr_settings]. unfold editServer. rewrite Hl.
    cbn [fmap option_fmap option_map]. rewrite (alter_same l i s Hi).
    now apply set_mcpServers_same.
Qed.

Lemma github_server_well_formed : well_formed_server github_server.
Proof.
  unfold well_formed_server, github_server, one_line.
  cbn [mcp_id mcp_name mcp_command mcp_args mcp_env].
  split; [discriminate |]. split; [reflexivity |]. split; [discriminate |].
  split; [now split |].
  split; [reflexivity |]. split; [discriminate |]. split; [now split |]. split.
  - repeat (constructor; [split; [discriminate | reflexivity] |]). constructor.
  - split.
    + intros H. apply (f_equal (fun m => m !! "GITHUB_TOKEN")) in H.
      rewrite lookup_singleton_eq, lookup_empty in H. discriminate H.
    + intros k v H. apply lookup_singleton_Some in H as [<- <-].
      repeat split; try reflexivity; discriminate.
Qed.

(** The server "github", with a token that contains '=', edited and
    saved without a change. *)
Lemma reopening_and_saving_keeps_the_server_witness :
  sr_saved (save 1700000001000 (onOpen (Some github_server) (editServer 0))
                 (set_mcpServers default_settings (Some [github_server])))
  = Some github_server.
Proof.
  apply (reopening_and_saving_keeps_the_server 1700000001000 github_server
           (set_mcpServers default_settings (Some [github_server]))
           github_server_well_formed).
Defined.
